(** * smriprep.interfaces.freesurfer: resume flags of [ReconAll.cmdline]
      and the output listing of the patched [CALabel]

    A shallow embedding of [src/smriprep/interfaces/freesurfer.py].

    Python strings are [string]; a trait that may be [Undefined] is an
    [option] ([isdefined x] is [x] being [Some _]); a step is the 3-tuple
    [(name, outfiles, infiles)] the code unpacks; the dict returned by
    [_list_outputs] is a [gmap] keyed by strings.  What the code takes from
    nipype (the step tables of [fs.ReconAll], the parent's command line,
    [_prep_expert_file], [_is_resuming], [_gen_subjects_dir], the parent's
    output listing) is a field of the object the functions receive. *)

From Stdlib Require Import ZArith Ascii DecimalString.
From stdpp Require Import base list strings gmap.

(** ** Python string primitives *)

Module Str.

(** [s.startswith(p)] *)
Definition startswith (s p : string) : bool := String.prefix p s.

(** [s.endswith("/")], the only use [os.path.join] makes of [endswith]. *)
Fixpoint endswith_sep (s : string) : bool :=
  match s with
  | EmptyString => false
  | String c EmptyString => Ascii.eqb c "/"%char
  | String _ s' => endswith_sep s'
  end.

(** [sub in s] on strings: [sub] occurs at some offset of [s]. *)
Fixpoint contains (sub s : string) : bool :=
  String.prefix sub s ||
  match s with
  | EmptyString => false
  | String _ s' => contains sub s'
  end.

(** [sep.join(l)] *)
Fixpoint join (sep : string) (l : list string) : string :=
  match l with
  | [] => ""
  | [x] => x
  | x :: l' => x +:+ sep +:+ join sep l'
  end.

(** [s.split("/")] : the components between the slashes, never empty. *)
Fixpoint split_sep (s : string) : list string :=
  match s with
  | EmptyString => [""]
  | String c s' =>
      if Ascii.eqb c "/"%char then "" :: split_sep s'
      else match split_sep s' with
           | [] => [String c ""]
           | w :: ws => String c w :: ws
           end
  end.

(** [f"{i:03d}"] for a non-negative [i]: decimal digits, zero-padded on the
    left to width three. *)
Fixpoint zeros (n : nat) : string :=
  match n with
  | O => ""
  | S n' => "0" +:+ zeros n'
  end.

Definition format_03d (i : nat) : string :=
  let digits := NilZero.string_of_uint (Nat.to_uint i) in
  zeros (3 - String.length digits) +:+ digits.

End Str.

(** ** [os.path] (posixpath) *)

Module Path.

(** [os.path.isabs(p)] *)
Definition isabs (p : string) : bool := Str.startswith p "/".

(** [os.path.join(a, b)] with one component [b]. *)
Definition join (a b : string) : string :=
  if Str.startswith b "/" then b
  else if String.eqb a "" || Str.endswith_sep a then a +:+ b
  else a +:+ "/" +:+ b.

(** The loop of [normpath] over the components, [new_comps] kept reversed
    (its head is [new_comps[-1]]). *)
Fixpoint norm_comps (initial_slashes : nat) (comps new_comps : list string)
  : list string :=
  match comps with
  | [] => rev new_comps
  | comp :: comps' =>
      if String.eqb comp "" || String.eqb comp "." then
        norm_comps initial_slashes comps' new_comps
      else if negb (String.eqb comp "..")
              || (Nat.eqb initial_slashes 0 && bool_decide (new_comps = []))
              || match new_comps with
                 | last :: _ => String.eqb last ".."
                 | [] => false
                 end
      then norm_comps initial_slashes comps' (comp :: new_comps)
      else match new_comps with
           | _ :: popped => norm_comps initial_slashes comps' popped
           | [] => norm_comps initial_slashes comps' new_comps
           end
  end.

(** [os.path.normpath(path)] *)
Definition normpath (path : string) : string :=
  if String.eqb path "" then "."
  else
    let initial_slashes :=
      if Str.startswith path "/" then
        if Str.startswith path "//" && negb (Str.startswith path "///")
        then 2 else 1
      else 0 in
    let comps := norm_comps initial_slashes (Str.split_sep path) [] in
    let path' := Str.join "/" comps in
    let path' :=
      match initial_slashes with
      | 0 => path'
      | 1 => "/" +:+ path'
      | _ => "//" +:+ path'
      end in
    if String.eqb path' "" then "." else path'.

(** [os.path.abspath(path)], [cwd] being [os.getcwd()]. *)
Definition abspath (cwd path : string) : string :=
  if isabs path then normpath path else normpath (join cwd path).

End Path.

(** ** Data model *)

(** A step is the 3-tuple [(step, outfiles, infiles)]: the flag name and the
    output and input file patterns, relative to the subject's directory. *)
Definition Step : Type := string * list string * list string.

Definition step_name (s : Step) : string := s.1.1.
Definition step_outfiles (s : Step) : list string := s.1.2.
Definition step_infiles (s : Step) : list string := s.2.

(** The step tables, class attributes of nipype's [fs.ReconAll] (they depend
    on the installed FreeSurfer version; the code only reads them). *)
Record StepTables := {
  _steps : list Step;
  _autorecon1_steps : list Step;
  _autorecon2_volonly_steps : list Step;
  _autorecon2_perhemi_steps : list Step;
  _autorecon2_lh_steps : list Step;
  _autorecon2_rh_steps : list Step;
  _autorecon2_steps : list Step;
  _autorecon_lh_steps : list Step;
  _autorecon_rh_steps : list Step;
  _autorecon3_steps : list Step;
}.

(** The inputs of [_ReconAllInputSpec] that [cmdline] reads; [None] is
    [Undefined]. *)
Record ReconAllInputs := {
  directive : option string;
  steps : option (list string);
  hemi : option string;
  subjects_dir : option string;
  subject_id : string;
}.

(** The values [directive] may take (the [traits.Enum] of the input spec). *)
Definition directive_values : list string :=
  [ "all"; "autorecon1";
    "autorecon2"; "autorecon2-volonly"; "autorecon2-perhemi";
    "autorecon2-inflate1"; "autorecon2-cp"; "autorecon2-wm";
    "autorecon3"; "autorecon3-T2pial";
    "autorecon-pial"; "autorecon-hemi";
    "localGI"; "qcache" ].

(** The values an element of [steps] may take. *)
Definition step_values : list string :=
  [ "motioncor"; "talairach"; "nuintensitycor"; "normalization"; "skullstrip";
    "gcareg"; "canorm"; "careg"; "careginv"; "rmneck"; "skull-lta"; "calabel";
    "normalization2"; "maskbfs"; "segmentation";
    "tessellate"; "smooth1"; "inflate1"; "qsphere"; "fix"; "white"; "smooth2";
    "inflate2"; "curvHK"; "curvstats";
    "sphere"; "surfreg"; "jacobian_white"; "avgcurv"; "cortparc"; "pial";
    "pctsurfcon"; "parcstats"; "cortparc2"; "parcstats2"; "cortparc3";
    "parcstats3"; "label-exvivo-ec";
    "cortribbon"; "hyporelabel"; "segstats"; "aparc2aseg"; "apas2aseg";
    "wmparc"; "balabels" ].

(** A [ReconAll] object as [cmdline] sees it: its inputs, and what the
    parent class answers. *)
Record ReconAll := {
  inputs : ReconAllInputs;
  tables : StepTables;
  (** [super(fs.ReconAll, self).cmdline] *)
  super_cmdline : string;
  (** [self._prep_expert_file()] *)
  _prep_expert_file : string;
  (** [self._is_resuming()] *)
  _is_resuming : bool;
  (** [self._gen_subjects_dir()] *)
  _gen_subjects_dir : string;
  force_run : bool;
}.

(** The files on disk: the modification time of a path, [None] when there is
    no such file. *)
Definition Files : Type := string → option Z.

(** Both files exist and [target] is the newer one. *)
Definition newer_than (files : Files) (target dep : string) : bool :=
  match files target, files dep with
  | Some t, Some d => (d <? t)%Z
  | _, _ => false
  end.

(** Modelled from the spec: the freshness helper [check_depends] of
    [nipype.utils.filemanip], which is not part of this repository.  The
    dependency is satisfied when every output is newer than every input it
    depends on; a missing file is "not satisfied", never an error. *)
Definition check_depends (files : Files) (targets dependencies : list string)
  : bool :=
  forallb (λ t, bool_decide (is_Some (files t))
                && forallb (newer_than files t) dependencies) targets.

(** What the claims say of the files of a step, in words of [Files]. *)

(** Every output exists and is newer than every input, which exists too. *)
Definition every_output_newer (files : Files) (outs ins : list string)
  : Prop :=
  ∀ o, o ∈ outs →
    ∃ t, files o = Some t ∧
         ∀ i, i ∈ ins → ∃ d, files i = Some d ∧ (d < t)%Z.

(** Some output is missing, or is older than one of the inputs. *)
Definition output_missing_or_older (files : Files) (outs ins : list string)
  : Prop :=
  ∃ o, o ∈ outs ∧
    (files o = None ∨
     ∃ i t d, i ∈ ins ∧ files o = Some t ∧ files i = Some d ∧ (t < d)%Z).

(** ** [ReconAll.cmdline] *)

(** Lines 136-163: the steps relevant to the directive or the step list. *)
Definition select_steps (T : StepTables) (inp : ReconAllInputs) : list Step :=
  match directive inp with
  | None =>
      match steps inp with
      | Some names => filter (λ step, step_name step ∈ names) (_steps T)
      | None => []
      end
  | Some directive =>
      if String.eqb directive "autorecon1" then _autorecon1_steps T
      else if String.eqb directive "autorecon2-volonly" then
        _autorecon2_volonly_steps T
      else if String.eqb directive "autorecon2-perhemi" then
        _autorecon2_perhemi_steps T
      else if Str.startswith directive "autorecon2" then
        match hemi inp with
        | Some h =>
            if String.eqb h "lh" then
              _autorecon2_volonly_steps T ++ _autorecon2_lh_steps T
            else
              _autorecon2_volonly_steps T ++ _autorecon2_rh_steps T
        | None => _autorecon2_steps T
        end
      else if String.eqb directive "autorecon-hemi" then
        if bool_decide (hemi inp = Some "lh") then _autorecon_lh_steps T
        else _autorecon_rh_steps T
      else if String.eqb directive "autorecon3" then _autorecon3_steps T
      else _steps T
  end.

(** Lines 167-185: one iteration of the loop, on the loop's two variables
    [(no_run, flags)]. *)
Definition resume_step (files : Files) (cmd subj_dir : string)
    (steps_defined : bool) (st : bool * list string) (s : Step)
  : bool * list string :=
  let '(no_run, flags) := st in
  let '(step, outfiles, infiles) := s in
  let flag := "-" +:+ step in
  let noflag := "-no" +:+ step in
  if Str.contains noflag cmd then (no_run, flags)
  else if Str.contains flag cmd then (false, flags)
  else if check_depends files
            (map (Path.join subj_dir) outfiles)
            (map (Path.join subj_dir) infiles)
       then (no_run, flags ++ [noflag])
       else (false, if steps_defined then flags ++ [flag] else flags).

(** Lines 165-185: the loop, from [no_run = True] and [flags = []]. *)
Definition resume_flags (files : Files) (cmd subj_dir : string)
    (steps_defined : bool) (l : list Step) : bool * list string :=
  fold_left (resume_step files cmd subj_dir steps_defined) l (true, []).

Definition nothing_to_do : string := "echo recon-all: nothing to do".

(** The base command: the parent's command line and the expert flag
    (lines 123-127). *)
Definition base_cmd (self : ReconAll) : string :=
  super_cmdline self +:+ _prep_expert_file self.

(** [os.path.join(subjects_dir, self.inputs.subject_id)], with
    [subjects_dir] generated when the input is undefined (lines 131-133 and
    176).  The source computes [subj_dir] in the loop's body; it does not
    change between iterations. *)
Definition subj_dir_of (self : ReconAll) : string :=
  let subjects_dir :=
    match subjects_dir (inputs self) with
    | Some d => d
    | None => _gen_subjects_dir self
    end in
  Path.join subjects_dir (subject_id (inputs self)).

(** The loop's result on the object's own data. *)
Definition cmdline_loop (files : Files) (self : ReconAll)
  : bool * list string :=
  resume_flags files (base_cmd self) (subj_dir_of self)
    (bool_decide (is_Some (steps (inputs self))))
    (select_steps (tables self) (inputs self)).

Definition cmdline (files : Files) (self : ReconAll) : string :=
  let cmd := base_cmd self in
  if negb (_is_resuming self) then cmd
  else
    let '(no_run, flags) := cmdline_loop files self in
    if no_run && negb (force_run self) then nothing_to_do
    else cmd +:+ " " +:+ Str.join " " flags.

(** ** [CALabel._list_outputs] *)

(** A value of the output listing: a trait left [Undefined], a path, or a
    list of paths. *)
Inductive OutputValue :=
  | Undefined
  | PathValue (p : string)
  | ListValue (l : list string).

(** A [CALabel] object as [_list_outputs] sees it. *)
Record CALabel := {
  write_probs : option string;
  (** [super()._list_outputs()] *)
  super_list_outputs : gmap string OutputValue;
  (** [os.getcwd()] *)
  getcwd : string;
}.

Definition _list_outputs (self : CALabel) : gmap string OutputValue :=
  let outputs := super_list_outputs self in
  match write_probs self with
  | Some prefix =>
      <["label_probabilities" :=
          ListValue (map (λ i, Path.abspath (getcwd self)
                                 (prefix +:+ Str.format_03d i +:+ ".mgz"))
                         (seq 0 3))]> outputs
  | None => outputs
  end.

(** ** A sample instance of the step tables

    The tables are nipype's; this instance, used by the examples below,
    has the step names of the FreeSurfer 6 tables: the names the input spec
    marks [5.3] ([careginv], [rmneck], [skull-lta]) are not steps of it. *)

Module Sample.

Definition autorecon1 : list Step :=
  [ ("motioncor", ["mri/rawavg.mgz"; "mri/orig.mgz"], []);
    ("talairach", ["mri/orig_nu.mgz"; "mri/transforms/talairach.auto.xfm";
                   "mri/transforms/talairach.xfm"], []);
    ("nuintensitycor", ["mri/nu.mgz"], []);
    ("normalization", ["mri/T1.mgz"], []);
    ("skullstrip", ["mri/transforms/talairach_with_skull.lta";
                    "mri/brainmask.auto.mgz"; "mri/brainmask.mgz"], []) ].

Definition autorecon2_volonly : list Step :=
  [ ("gcareg", ["mri/transforms/talairach.lta"], []);
    ("canorm", ["mri/norm.mgz"], []);
    ("careg", ["mri/transforms/talairach.m3z"], []);
    ("calabel", ["mri/aseg.auto_noCCseg.mgz"; "mri/aseg.auto.mgz";
                 "mri/aseg.presurf.mgz"], []);
    ("normalization2", ["mri/brain.mgz"], []);
    ("maskbfs", ["mri/brain.finalsurfs.mgz"], []);
    ("segmentation", ["mri/wm.seg.mgz"; "mri/wm.asegedit.mgz";
                      "mri/wm.mgz"], []) ].

(** The per-hemisphere steps, their output files named after each of the
    hemispheres [hs]. *)
Definition hemi_step (hs : list string) (step : string)
    (outs : list (string * string)) : Step :=
  (step, o ← outs; (λ h, o.1 +:+ h +:+ o.2) <$> hs, []).

Definition autorecon2_hemi (hs : list string) : list Step :=
  [ hemi_step hs "tessellate" [("surf/", ".orig.nofix")];
    hemi_step hs "smooth1" [("surf/", ".smoothwm.nofix")];
    hemi_step hs "inflate1" [("surf/", ".inflated.nofix")];
    hemi_step hs "qsphere" [("surf/", ".qsphere.nofix")];
    hemi_step hs "fix" [("surf/", ".inflated"); ("surf/", ".orig")];
    hemi_step hs "white" [("surf/", ".white.preaparc"); ("surf/", ".curv");
                          ("surf/", ".area"); ("label/", ".cortex.label")];
    hemi_step hs "smooth2" [("surf/", ".smoothwm")];
    hemi_step hs "inflate2" [("surf/", ".sulc")];
    hemi_step hs "curvHK" [("surf/", ".white.H"); ("surf/", ".white.K");
                           ("surf/", ".inflated.H"); ("surf/", ".inflated.K")];
    hemi_step hs "curvstats" [("stats/", ".curv.stats")] ].

Definition autorecon3_hemi (hs : list string) : list Step :=
  [ hemi_step hs "sphere" [("surf/", ".sphere")];
    hemi_step hs "surfreg" [("surf/", ".sphere.reg")];
    hemi_step hs "jacobian_white" [("surf/", ".jacobian_white")];
    hemi_step hs "avgcurv" [("surf/", ".avg_curv")];
    hemi_step hs "cortparc" [("label/", ".aparc.annot")];
    hemi_step hs "pial" [("surf/", ".pial"); ("surf/", ".curv.pial");
                         ("surf/", ".area.pial"); ("surf/", ".thickness")];
    hemi_step hs "parcstats" [("stats/", ".aparc.stats")];
    hemi_step hs "cortparc2" [("label/", ".aparc.a2009s.annot")];
    hemi_step hs "parcstats2" [("stats/", ".aparc.a2009s.stats")];
    hemi_step hs "cortparc3" [("label/", ".aparc.DKTatlas.annot")];
    hemi_step hs "parcstats3" [("stats/", ".aparc.DKTatlas.stats")];
    hemi_step hs "pctsurfcon" [("surf/", ".w-g.pct.mgh");
                               ("stats/", ".w-g.pct.stats")] ].

Definition autorecon3_volonly : list Step :=
  [ ("cortribbon", ["mri/lh.ribbon.mgz"; "mri/rh.ribbon.mgz";
                    "mri/ribbon.mgz"], []);
    ("hyporelabel", ["mri/aseg.presurf.hypos.mgz"], []);
    ("aparc2aseg", ["mri/aparc+aseg.mgz"; "mri/aparc.a2009s+aseg.mgz";
                    "mri/aparc.DKTatlas+aseg.mgz"], []);
    ("apas2aseg", ["mri/aseg.mgz"], ["mri/aparc+aseg.mgz"]);
    ("segstats", ["stats/aseg.stats"], []);
    ("wmparc", ["mri/wmparc.mgz"; "stats/wmparc.stats"], []);
    ("balabels", ["label/BA_exvivo.ctab"; "label/BA_exvivo.thresh.ctab"], []) ].

Definition fs6 : StepTables :=
  let autorecon2 := autorecon2_volonly ++ autorecon2_hemi ["lh"; "rh"] in
  let autorecon3 := autorecon3_hemi ["lh"; "rh"] ++ autorecon3_volonly in
  {| _steps := autorecon1 ++ autorecon2 ++ autorecon3;
     _autorecon1_steps := autorecon1;
     _autorecon2_volonly_steps := autorecon2_volonly;
     _autorecon2_perhemi_steps := autorecon2_hemi ["lh"; "rh"];
     _autorecon2_lh_steps := autorecon2_hemi ["lh"];
     _autorecon2_rh_steps := autorecon2_hemi ["rh"];
     _autorecon2_steps := autorecon2;
     _autorecon_lh_steps := autorecon2_hemi ["lh"] ++ autorecon3_hemi ["lh"];
     _autorecon_rh_steps := autorecon2_hemi ["rh"] ++ autorecon3_hemi ["rh"];
     _autorecon3_steps := autorecon3 |}.

(** A resumed run of the directive [d] for subject [sub-01] under
    [/subjects]. *)
Definition run (d : string) (h : option string) : ReconAll :=
  {| inputs := {| directive := Some d; steps := None; hemi := h;
                  subjects_dir := Some "/subjects"; subject_id := "sub-01" |};
     tables := fs6;
     super_cmdline := "recon-all -" +:+ d +:+ " -subjid sub-01 -sd /subjects";
     _prep_expert_file := "";
     _is_resuming := true;
     _gen_subjects_dir := "/work";
     force_run := false |}.

(** A resumed run of an explicit list of steps ([steps] has no [argstr]:
    the parent's command line does not show it), [extra] being further
    arguments of the command line. *)
Definition run_steps (names : list string) (extra : string) : ReconAll :=
  {| inputs := {| directive := None; steps := Some names; hemi := None;
                  subjects_dir := None; subject_id := "sub-01" |};
     tables := fs6;
     super_cmdline := "recon-all -subjid sub-01" +:+ extra;
     _prep_expert_file := "";
     _is_resuming := true;
     _gen_subjects_dir := "/subjects";
     force_run := false |}.

(** No file at all on disk. *)
Definition no_files : Files := λ _, None.

(** Every file on disk, all with the same modification time but those under
    [mri/], which are older. *)
Definition all_files : Files :=
  λ p, if Str.contains "/mri/" p then Some 10%Z else Some 20%Z.

End Sample.

(** * Properties *)

(** ** The primitives on examples *)

Example format_03d_examples :
  Str.format_03d 0 = "000" ∧ Str.format_03d 7 = "007" ∧
  Str.format_03d 42 = "042" ∧ Str.format_03d 1234 = "1234".
Proof. by split_and!. Qed.

Example contains_examples :
  Str.contains "-nofix" "recon-all -all -nofix" = true ∧
  Str.contains "-fix" "recon-all -all -nofix" = false ∧
  Str.contains "" "" = true ∧
  Str.contains "-fix" "" = false.
Proof. by split_and!. Qed.

Example path_join_examples :
  Path.join "/subjects" "sub-01" = "/subjects/sub-01" ∧
  Path.join "/subjects/" "sub-01" = "/subjects/sub-01" ∧
  Path.join "/subjects" "/other" = "/other" ∧
  Path.join "" "sub-01" = "sub-01".
Proof. by split_and!. Qed.

Example abspath_examples :
  Path.abspath "/work" "posterior000.mgz" = "/work/posterior000.mgz" ∧
  Path.abspath "/work" "out/../p" = "/work/p" ∧
  Path.abspath "/work" "/data//x/./p" = "/data/x/p" ∧
  Path.abspath "/work" "" = "/work".
Proof. by split_and!. Qed.

(** A resumed [autorecon2-perhemi] run on the sample tables with one output
    of [white] missing: every other step gets its ['-no<step>']. *)
Example cmdline_example :
  cmdline (λ p, if String.eqb p "/subjects/sub-01/surf/rh.curv" then None
                else Some 5%Z)
    (Sample.run "autorecon2-perhemi" None)
  = "recon-all -autorecon2-perhemi -subjid sub-01 -sd /subjects"
    +:+ " -notessellate -nosmooth1 -noinflate1 -noqsphere -nofix"
    +:+ " -nosmooth2 -noinflate2 -nocurvHK -nocurvstats".
Proof. reflexivity. Qed.

(** ** Strings *)

Section strings.
Implicit Types s p sub pre post : string.

Lemma string_app_nil_l s : "" +:+ s = s.
Proof. reflexivity. Qed.

Lemma string_app_cons c s1 s2 : String c s1 +:+ s2 = String c (s1 +:+ s2).
Proof. reflexivity. Qed.

Lemma string_app_empty_r s : s +:+ "" = s.
Proof.
  induction s as [|c s IH]; [done | by rewrite string_app_cons, IH].
Qed.

Lemma string_app_assoc s1 s2 s3 : (s1 +:+ s2) +:+ s3 = s1 +:+ s2 +:+ s3.
Proof.
  induction s1 as [|c s1 IH]; [done | by rewrite !string_app_cons, IH].
Qed.

(** [String.prefix] decides "is an initial segment of". *)
Lemma prefix_spec p s :
  String.prefix p s = true ↔ ∃ post, s = p +:+ post.
Proof.
  revert s. induction p as [|c p IH]; intros s.
  - split; [intros _; by exists s | by destruct s].
  - destruct s as [|d s]; simpl.
    + split; [done | by intros [post ?]].
    + destruct (Ascii.ascii_dec c d) as [->|Hne].
      * rewrite IH. split; intros [post Hp]; exists post.
        -- by rewrite string_app_cons, <- Hp.
        -- rewrite string_app_cons in Hp. congruence.
      * split; [done | intros [post Hp]].
        rewrite string_app_cons in Hp. congruence.
Qed.

(** Strings that end in different characters differ. *)
Lemma string_app_last_ne s1 s2 (c d : ascii) :
  c ≠ d → s1 +:+ String c "" ≠ s2 +:+ String d "".
Proof.
  intros Hne. revert s2.
  induction s1 as [|a s1 IH]; intros [|b s2] Heq;
    rewrite ?string_app_cons, ?string_app_nil_l in Heq.
  - congruence.
  - destruct s2; discriminate.
  - destruct s1; discriminate.
  - apply (IH s2). congruence.
Qed.

Lemma startswith_spec s p :
  Str.startswith s p = true ↔ ∃ post, s = p +:+ post.
Proof. apply prefix_spec. Qed.

(** [Str.contains] decides "occurs somewhere in": Python's [sub in s]. *)
Lemma contains_spec sub s :
  Str.contains sub s = true ↔ ∃ pre post, s = pre +:+ sub +:+ post.
Proof.
  induction s as [|c s IH]; cbn [Str.contains].
  - rewrite orb_false_r, prefix_spec. split.
    + intros [post Hp]. by exists "", post.
    + intros [pre [post Hp]]. destruct pre; [by exists post | done].
  - rewrite orb_true_iff, prefix_spec, IH. split.
    + intros [[post Hp] | [pre [post Hp]]].
      * by exists "", post.
      * exists (String c pre), post. by rewrite string_app_cons, <- Hp.
    + intros [pre [post Hp]]. destruct pre as [|d pre].
      * left. by exists post.
      * right. exists pre, post. rewrite string_app_cons in Hp. congruence.
Qed.

Lemma contains_app pre sub post :
  Str.contains sub (pre +:+ sub +:+ post) = true.
Proof. apply contains_spec. by exists pre, post. Qed.

Lemma not_contains_spec sub s :
  Str.contains sub s = false ↔ ∀ pre post, s ≠ pre +:+ sub +:+ post.
Proof.
  rewrite <- not_true_iff_false, contains_spec. split.
  - intros Hn pre post ->. apply Hn. by exists pre, post.
  - intros Hn [pre [post ->]]. by apply (Hn pre post).
Qed.
End strings.

(** ** Freshness *)

Section freshness.
Variable files : Files.

Lemma newer_than_spec target dep :
  newer_than files target dep = true ↔
  ∃ t d, files target = Some t ∧ files dep = Some d ∧ (d < t)%Z.
Proof.
  unfold newer_than.
  destruct (files target) as [t|], (files dep) as [d|];
    try (split; [done | by intros (? & ? & ? & ? & ?)]).
  rewrite Z.ltb_lt. split.
  - intros Hlt. by exists t, d.
  - intros (t' & d' & [= <-] & [= <-] & Hlt). done.
Qed.

Lemma check_depends_spec outs ins :
  check_depends files outs ins = true ↔ every_output_newer files outs ins.
Proof.
  unfold check_depends, every_output_newer.
  rewrite forallb_forall. split.
  - intros Hall o Ho.
    apply list_elem_of_In, Hall, andb_true_iff in Ho as [Hex Hdeps].
    apply bool_decide_eq_true in Hex as [t Ht]. exists t. split; [done|].
    intros i Hi. rewrite forallb_forall in Hdeps.
    apply list_elem_of_In, Hdeps, newer_than_spec in Hi
      as (t' & d & Ht' & Hd & Hlt).
    exists d. split; [done|]. congruence.
  - intros Hall o Ho. apply list_elem_of_In, Hall in Ho as (t & Ht & Hdeps).
    apply andb_true_iff. split.
    + apply bool_decide_eq_true. by exists t.
    + apply forallb_forall. intros i Hi.
      apply list_elem_of_In, Hdeps in Hi as (d & Hd & Hlt).
      apply newer_than_spec. by exists t, d.
Qed.

Lemma check_depends_stale outs ins :
  output_missing_or_older files outs ins →
  check_depends files outs ins = false.
Proof.
  intros (o & Ho & Hbad). apply not_true_iff_false.
  rewrite check_depends_spec. intros Hall.
  destruct (Hall o Ho) as (t & Ht & Hdeps).
  destruct Hbad as [Hnone | (i & t' & d & Hi & Ht' & Hd & Hlt)].
  - congruence.
  - destruct (Hdeps i Hi) as (d' & Hd' & Hlt'). simplify_eq. lia.
Qed.
End freshness.

(** ** The loop of [cmdline] *)

Section resume_loop.
Variables (files : Files) (cmd subj_dir : string) (steps_defined : bool).

Local Abbreviation body := (resume_step files cmd subj_dir steps_defined).
Local Abbreviation fresh s :=
  (check_depends files (map (Path.join subj_dir) (step_outfiles s))
                       (map (Path.join subj_dir) (step_infiles s))).
Local Abbreviation flag s := ("-" +:+ step_name s).
Local Abbreviation noflag s := ("-no" +:+ step_name s).

Lemma resume_step_noflag st s :
  Str.contains (noflag s) cmd = true → body st s = st.
Proof.
  destruct st as [no_run flags], s as [[step outs] ins];
    unfold step_name, step_outfiles, step_infiles; simpl.
  by intros ->.
Qed.

Lemma resume_step_flag st s :
  Str.contains (noflag s) cmd = false →
  Str.contains (flag s) cmd = true →
  body st s = (false, st.2).
Proof.
  destruct st as [no_run flags], s as [[step outs] ins];
    unfold step_name, step_outfiles, step_infiles; simpl.
  by intros -> ->.
Qed.

Lemma resume_step_fresh st s :
  Str.contains (noflag s) cmd = false →
  Str.contains (flag s) cmd = false →
  fresh s = true →
  body st s = (st.1, st.2 ++ [noflag s]).
Proof.
  destruct st as [no_run flags], s as [[step outs] ins];
    unfold step_name, step_outfiles, step_infiles; simpl.
  by intros -> -> ->.
Qed.

Lemma resume_step_stale st s :
  Str.contains (noflag s) cmd = false →
  Str.contains (flag s) cmd = false →
  fresh s = false →
  body st s = (false, st.2 ++ if steps_defined then [flag s] else []).
Proof.
  destruct st as [no_run flags], s as [[step outs] ins];
    unfold step_name, step_outfiles, step_infiles; simpl.
  intros -> -> ->. destruct steps_defined; [done|].
  by rewrite app_nil_r.
Qed.

(** An iteration only ever appends to [flags]. *)
Lemma resume_step_flags_prefix st s : st.2 `prefix_of` (body st s).2.
Proof.
  destruct st as [no_run flags], s as [[step outs] ins];
    unfold step_name, step_outfiles, step_infiles; simpl.
  repeat case_match; simpl; try done; by apply prefix_app_r.
Qed.

Lemma resume_loop_flags_prefix l st :
  st.2 `prefix_of` (fold_left body l st).2.
Proof.
  revert st. induction l as [|s l IH]; intros st; simpl; [done|].
  etrans; [apply resume_step_flags_prefix | apply IH].
Qed.

(** Once [no_run] is [False] it stays so. *)
Lemma resume_step_no_run_false flags s : (body (false, flags) s).1 = false.
Proof.
  destruct s as [[step outs] ins]; simpl. by repeat case_match.
Qed.

Lemma resume_loop_no_run_false l st :
  st.1 = false → (fold_left body l st).1 = false.
Proof.
  revert st. induction l as [|s l IH]; intros [no_run flags]; simpl;
    [done|].
  intros ->. apply IH, resume_step_no_run_false.
Qed.

(** A step that is skipped on the command line, or has no flag there and
    is fresh, leaves [no_run] as it is. *)
Lemma resume_loop_no_run_kept l st :
  (∀ s, s ∈ l →
     Str.contains (noflag s) cmd = true ∨
     (Str.contains (flag s) cmd = false ∧ fresh s = true)) →
  (fold_left body l st).1 = st.1.
Proof.
  revert st. induction l as [|s l IH]; intros st Hall; simpl; [done|].
  rewrite IH by (intros s' Hs'; apply Hall; by right).
  destruct (Hall s) as [Hno | [Hfl Hfr]]; [by left | |].
  - by rewrite resume_step_noflag.
  - destruct (Str.contains (noflag s) cmd) eqn:Hno.
    + by rewrite resume_step_noflag.
    + by rewrite resume_step_fresh.
Qed.

(** A step that is not skipped on the command line, and is forced there
    or is not fresh, clears [no_run]. *)
Lemma resume_loop_no_run_cleared l st s :
  s ∈ l →
  Str.contains (noflag s) cmd = false →
  Str.contains (flag s) cmd = true ∨ fresh s = false →
  (fold_left body l st).1 = false.
Proof.
  intros Hin Hno Hrun. apply list_elem_of_split in Hin as (l1 & l2 & ->).
  rewrite fold_left_app. simpl. apply resume_loop_no_run_false.
  destruct (Str.contains (flag s) cmd) eqn:Hfl.
  - by rewrite resume_step_flag.
  - destruct Hrun as [? | Hst]; [done|]. by rewrite resume_step_stale.
Qed.

(** In directive mode a loop over steps that all need a run adds no
    flag. *)
Lemma resume_loop_all_stale l st :
  steps_defined = false →
  (∀ s, s ∈ l →
     Str.contains (noflag s) cmd = false ∧
     Str.contains (flag s) cmd = false ∧ fresh s = false) →
  l ≠ [] →
  fold_left body l st = (false, st.2).
Proof.
  intros Hsd. revert st. induction l as [|s l IH]; intros st Hall Hne;
    [done|]. simpl.
  destruct (Hall s) as (Hno & Hfl & Hst); [by left|].
  rewrite resume_step_stale by done.
  replace (if steps_defined then [flag s] else []) with (@nil string)
    by (by rewrite Hsd).
  rewrite app_nil_r.
  destruct (decide (l = [])) as [-> | Hl]; [done|].
  rewrite IH; [done | | done]. intros s' Hs'. apply Hall. by right.
Qed.

Lemma resume_flags_app l1 l2 :
  resume_flags files cmd subj_dir steps_defined (l1 ++ l2) =
  fold_left body l2 (resume_flags files cmd subj_dir steps_defined l1).
Proof. apply fold_left_app. Qed.
End resume_loop.

(** The two ways out of [cmdline] when resuming. *)
Lemma cmdline_nothing_to_do files self :
  _is_resuming self = true →
  (cmdline_loop files self).1 = true →
  force_run self = false →
  cmdline files self = nothing_to_do.
Proof.
  unfold cmdline. intros -> Hrun ->. simpl.
  destruct (cmdline_loop files self) as [no_run flags]. simpl in Hrun.
  by rewrite Hrun.
Qed.

Lemma cmdline_resume files self :
  _is_resuming self = true →
  (cmdline_loop files self).1 = false →
  cmdline files self =
    base_cmd self +:+ " " +:+ Str.join " " (cmdline_loop files self).2.
Proof.
  unfold cmdline. intros -> Hrun. simpl.
  destruct (cmdline_loop files self) as [no_run flags]. simpl in Hrun.
  by rewrite Hrun.
Qed.

(** ** The resume flag builder *)

(** C1. When resuming, a step of the resolved sequence that has neither
    ['-no<step>'] nor ['-<step>'] in the base command line is decided by
    the freshness of its files under [<subjects_dir>/<subject_id>/]: if
    every output is newer than every input, the iteration appends
    ['-no<step>'] to the flags and leaves [no_run] alone; if an output is
    missing or older than an input, it appends no ['-no<step>'], clears
    [no_run] (the step needs a run, also for the whole loop), and appends
    ['-<step>'] exactly when the [steps] input is defined.  What an
    iteration appended stays in the loop's final flags. *)
Theorem resume_step_decided_by_freshness
    files self pre step outfiles infiles post :
  let cmd := base_cmd self in
  let subj_dir := subj_dir_of self in
  let steps_defined := bool_decide (is_Some (steps (inputs self))) in
  let outs := map (Path.join subj_dir) outfiles in
  let ins := map (Path.join subj_dir) infiles in
  let loop := resume_flags files cmd subj_dir steps_defined in
  select_steps (tables self) (inputs self)
    = pre ++ (step, outfiles, infiles) :: post →
  Str.contains ("-no" +:+ step) cmd = false →
  Str.contains ("-" +:+ step) cmd = false →
  (every_output_newer files outs ins →
     loop (pre ++ [(step, outfiles, infiles)])
     = ((loop pre).1, (loop pre).2 ++ ["-no" +:+ step])) ∧
  (output_missing_or_older files outs ins →
     loop (pre ++ [(step, outfiles, infiles)])
     = (false, (loop pre).2 ++
               if steps_defined then ["-" +:+ step] else []) ∧
     (cmdline_loop files self).1 = false) ∧
  (loop (pre ++ [(step, outfiles, infiles)])).2
    `prefix_of` (cmdline_loop files self).2.
Proof.
  intros cmd subj_dir steps_defined outs ins loop Hsel Hno Hfl.
  subst loop. rewrite resume_flags_app. simpl. split_and!.
  - intros Hfresh. apply resume_step_fresh; [done | done |].
    by apply check_depends_spec.
  - intros Hstale. apply check_depends_stale in Hstale. split.
    + by apply resume_step_stale.
    + unfold cmdline_loop, resume_flags. rewrite Hsel.
      apply resume_loop_no_run_cleared with (s := (step, outfiles, infiles));
        [apply elem_of_app; right; by left | done | by right].
  - unfold cmdline_loop. rewrite Hsel, resume_flags_app. simpl.
    apply resume_loop_flags_prefix.
Qed.

(** C1 on the sample tables: with every file present, the first step of
    [autorecon1] gets ['-nomotioncor']. *)
Lemma resume_step_decided_by_freshness_witness :
  resume_flags Sample.all_files
    "recon-all -autorecon1 -subjid sub-01 -sd /subjects" "/subjects/sub-01"
    false [("motioncor", ["mri/rawavg.mgz"; "mri/orig.mgz"], [])]
  = (true, ["-nomotioncor"]).
Proof.
  destruct (resume_step_decided_by_freshness Sample.all_files
              (Sample.run "autorecon1" None) []
              "motioncor" ["mri/rawavg.mgz"; "mri/orig.mgz"] []
              (tail Sample.autorecon1) eq_refl eq_refl eq_refl)
    as (Hfresh & _ & _).
  apply Hfresh. apply check_depends_spec. reflexivity.
Defined.

(** C2. When resuming with [force_run] false, if every step of the resolved
    sequence either has ['-no<step>'] in the base command line, or has no
    ['-<step>'] there and is fresh, [cmdline] is the placeholder
    ['echo recon-all: nothing to do'];  in particular when every step has
    ['-no<step>'] in the base command line. *)
Theorem nothing_to_do_when_no_step_runs files self :
  let cmd := base_cmd self in
  let subj_dir := subj_dir_of self in
  _is_resuming self = true →
  force_run self = false →
  ((∀ step outfiles infiles,
      (step, outfiles, infiles) ∈ select_steps (tables self) (inputs self) →
      Str.contains ("-no" +:+ step) cmd = true ∨
      (Str.contains ("-" +:+ step) cmd = false ∧
       every_output_newer files (map (Path.join subj_dir) outfiles)
                                (map (Path.join subj_dir) infiles))) →
   cmdline files self = nothing_to_do) ∧
  ((∀ step outfiles infiles,
      (step, outfiles, infiles) ∈ select_steps (tables self) (inputs self) →
      Str.contains ("-no" +:+ step) cmd = true) →
   cmdline files self = nothing_to_do).
Proof.
  intros cmd subj_dir Hres Hforce.
  assert (Hgen :
    (∀ step outfiles infiles,
      (step, outfiles, infiles) ∈ select_steps (tables self) (inputs self) →
      Str.contains ("-no" +:+ step) cmd = true ∨
      (Str.contains ("-" +:+ step) cmd = false ∧
       every_output_newer files (map (Path.join subj_dir) outfiles)
                                (map (Path.join subj_dir) infiles))) →
    cmdline files self = nothing_to_do).
  { intros Hall. apply cmdline_nothing_to_do; [done | | done].
    unfold cmdline_loop, resume_flags.
    rewrite resume_loop_no_run_kept; [done|].
    intros [[step outfiles] infiles] Hs.
    destruct (Hall _ _ _ Hs) as [Hno | [Hfl Hfresh]]; [by left | right].
    split; [done | by apply check_depends_spec]. }
  split; [done|].
  intros Hall. apply Hgen. intros step outfiles infiles Hs. left. eauto.
Qed.

(** C2 on the sample tables: [autorecon1] with every file present. *)
Lemma nothing_to_do_when_no_step_runs_witness :
  cmdline Sample.all_files (Sample.run "autorecon1" None)
  = "echo recon-all: nothing to do".
Proof.
  destruct (nothing_to_do_when_no_step_runs Sample.all_files
              (Sample.run "autorecon1" None) eq_refl eq_refl) as [Hgen _].
  apply Hgen. intros step outfiles infiles Hs. right.
  split; [| apply check_depends_spec];
    repeat (apply elem_of_cons in Hs as [[= -> -> ->] | Hs];
            [reflexivity|]);
    by apply elem_of_nil in Hs.
Defined.

(** C5. Flags of the base command line come before the freshness check,
    ['-no<step>'] before ['-<step>']: with ['-no<step>'] present the
    iteration changes nothing ([no_run] and the flags are as before); else
    with ['-<step>'] present it adds no flag and clears [no_run], and a
    resuming [cmdline] whose sequence has such a step is the real command
    line, not the placeholder; in both cases the files on disk play no
    part in the result. *)
Theorem command_line_flags_take_precedence
    files cmd subj_dir steps_defined no_run flags step outfiles infiles :
  let iteration files :=
    resume_step files cmd subj_dir steps_defined (no_run, flags)
      (step, outfiles, infiles) in
  (Str.contains ("-no" +:+ step) cmd = true →
     iteration files = (no_run, flags)) ∧
  (Str.contains ("-no" +:+ step) cmd = false →
   Str.contains ("-" +:+ step) cmd = true →
     iteration files = (false, flags)) ∧
  (Str.contains ("-no" +:+ step) cmd = true ∨
   Str.contains ("-" +:+ step) cmd = true →
     ∀ files', iteration files' = iteration files) ∧
  (∀ self,
     _is_resuming self = true →
     cmd = base_cmd self →
     (step, outfiles, infiles) ∈ select_steps (tables self) (inputs self) →
     Str.contains ("-no" +:+ step) cmd = false →
     Str.contains ("-" +:+ step) cmd = true →
     cmdline files self
     = cmd +:+ " " +:+ Str.join " " (cmdline_loop files self).2).
Proof.
  intros iteration. subst iteration. simpl. split_and!.
  - by intros ->.
  - by intros -> ->.
  - intros Hor files'.
    destruct (Str.contains ("-no" +:+ step) cmd); [done|].
    destruct Hor as [? | ->]; done.
  - intros self Hres -> Hin Hno Hfl. apply cmdline_resume; [done|].
    unfold cmdline_loop, resume_flags.
    apply resume_loop_no_run_cleared with (s := (step, outfiles, infiles));
      [done | done | by left].
Qed.

(** C5 on the sample tables: ['-nofix'] on the command line, all files
    missing: the iteration for [fix] changes nothing. *)
Lemma command_line_flags_take_precedence_witness :
  resume_step Sample.no_files "recon-all -all -nofix -subjid sub-01"
    "/subjects/sub-01" false (true, ["-nosmooth1"])
    ("fix", ["surf/lh.orig"], [])
  = (true, ["-nosmooth1"]).
Proof.
  destruct (command_line_flags_take_precedence Sample.no_files
              "recon-all -all -nofix -subjid sub-01" "/subjects/sub-01"
              false true ["-nosmooth1"] "fix" ["surf/lh.orig"] [])
    as (Hskip & _).
  apply Hskip. reflexivity.
Defined.

(** C8. Whether a flag is "already present" is substring containment over
    the whole base command line: the tests for ['-no<step>'] and for
    ['-<step>'] succeed exactly when the characters occur at some offset
    of the command string, whatever surrounds them; any such occurrence of
    ['-no<step>'] makes the iteration skip the step, and any such
    occurrence of ['-<step>'] (with no occurrence of ['-no<step>']) makes
    it take the already-forced branch. *)
Theorem flag_presence_is_substring_containment
    files cmd subj_dir steps_defined no_run flags step outfiles infiles :
  let iteration :=
    resume_step files cmd subj_dir steps_defined (no_run, flags)
      (step, outfiles, infiles) in
  (Str.contains ("-no" +:+ step) cmd = true ↔
     ∃ pre post, cmd = pre +:+ ("-no" +:+ step) +:+ post) ∧
  (Str.contains ("-" +:+ step) cmd = true ↔
     ∃ pre post, cmd = pre +:+ ("-" +:+ step) +:+ post) ∧
  (∀ pre post, cmd = pre +:+ ("-no" +:+ step) +:+ post →
     iteration = (no_run, flags)) ∧
  (∀ pre post, cmd = pre +:+ ("-" +:+ step) +:+ post →
     (∀ pre' post', cmd ≠ pre' +:+ ("-no" +:+ step) +:+ post') →
     iteration = (false, flags)).
Proof.
  intros iteration. subst iteration. split_and!.
  - apply contains_spec.
  - apply contains_spec.
  - intros pre post ->. simpl. by rewrite contains_app.
  - intros pre post Hcmd Hnone. apply not_contains_spec in Hnone.
    simpl. rewrite Hnone. subst cmd. by rewrite contains_app.
Qed.

(** C8 on examples: a subject identifier that ends in [-nofix] skips the
    step [fix]; the directive flag [-autorecon2-inflate1] counts as the
    flag [-inflate1]; a path with [-white] in it counts as the flag
    [-white]. *)
Lemma flag_presence_is_substring_containment_witness :
  resume_step Sample.no_files "recon-all -all -subjid sub-nofix"
    "/subjects/sub-nofix" false (true, []) ("fix", ["surf/lh.orig"], [])
  = (true, []) ∧
  resume_step Sample.all_files "recon-all -autorecon2-inflate1 -subjid s1"
    "/subjects/s1" false (true, []) ("inflate1", ["surf/lh.inflated.nofix"], [])
  = (false, []) ∧
  resume_step Sample.all_files "recon-all -all -subjid s1 -sd /data/black-white"
    "/data/black-white/s1" false (true, []) ("white", ["surf/lh.white"], [])
  = (false, []).
Proof.
  split_and!.
  - destruct (flag_presence_is_substring_containment Sample.no_files
                "recon-all -all -subjid sub-nofix" "/subjects/sub-nofix"
                false true [] "fix" ["surf/lh.orig"] [])
      as (_ & _ & Hskip & _).
    by apply (Hskip "recon-all -all -subjid sub" "").
  - destruct (flag_presence_is_substring_containment Sample.all_files
                "recon-all -autorecon2-inflate1 -subjid s1" "/subjects/s1"
                false true [] "inflate1" ["surf/lh.inflated.nofix"] [])
      as (_ & _ & _ & Hforced).
    apply (Hforced "recon-all -autorecon2" " -subjid s1"); [done|].
    by apply not_contains_spec.
  - destruct (flag_presence_is_substring_containment Sample.all_files
                "recon-all -all -subjid s1 -sd /data/black-white"
                "/data/black-white/s1"
                false true [] "white" ["surf/lh.white"] [])
      as (_ & _ & _ & Hforced).
    apply (Hforced "recon-all -all -subjid s1 -sd /data/black" ""); [done|].
    by apply not_contains_spec.
Defined.

(** ** The scenario of [autorecon1] with every output missing *)

(** On the sample tables, the resumed [autorecon1] run with no file on disk
    and none of the steps' flags on the command line: the result is the
    base command line with a space after it, not the base command line. *)
Lemma autorecon1_all_missing_is_not_base_cmd :
  directive (inputs (Sample.run "autorecon1" None)) = Some "autorecon1" ∧
  (∀ s, s ∈ _autorecon1_steps (tables (Sample.run "autorecon1" None)) →
     Str.contains ("-no" +:+ step_name s)
       (base_cmd (Sample.run "autorecon1" None)) = false ∧
     Str.contains ("-" +:+ step_name s)
       (base_cmd (Sample.run "autorecon1" None)) = false ∧
     ∀ o, o ∈ step_outfiles s →
       Sample.no_files
         (Path.join (subj_dir_of (Sample.run "autorecon1" None)) o) = None) ∧
  base_cmd (Sample.run "autorecon1" None)
  = "recon-all -autorecon1 -subjid sub-01 -sd /subjects" ∧
  cmdline Sample.no_files (Sample.run "autorecon1" None)
  = "recon-all -autorecon1 -subjid sub-01 -sd /subjects " ∧
  cmdline Sample.no_files (Sample.run "autorecon1" None)
  ≠ base_cmd (Sample.run "autorecon1" None).
Proof.
  split_and!; try done.
  intros s Hs.
  repeat (apply elem_of_cons in Hs as [-> | Hs]; [done|]).
  by apply elem_of_nil in Hs.
Qed.

(** C7, amended. When resuming with directive ['autorecon1'] ([steps]
    undefined), the table of [autorecon1] not empty, none of its steps with
    ['-<step>'] or ['-no<step>'] in the base command line, and each of them
    with output files that are all missing: after every step [no_run] is
    false and no flag was collected, the placeholder is not returned, and
    [cmdline] is the base command line followed by one space (the separator
    before the empty list of flags). *)
Theorem autorecon1_all_outputs_missing files self :
  let cmd := base_cmd self in
  let subj_dir := subj_dir_of self in
  _is_resuming self = true →
  directive (inputs self) = Some "autorecon1" →
  steps (inputs self) = None →
  _autorecon1_steps (tables self) ≠ [] →
  (∀ step outfiles infiles,
     (step, outfiles, infiles) ∈ _autorecon1_steps (tables self) →
     Str.contains ("-no" +:+ step) cmd = false ∧
     Str.contains ("-" +:+ step) cmd = false ∧
     outfiles ≠ [] ∧
     ∀ o, o ∈ outfiles → files (Path.join subj_dir o) = None) →
  (∀ pre post,
     _autorecon1_steps (tables self) = pre ++ post → pre ≠ [] →
     resume_flags files cmd subj_dir false pre = (false, [])) ∧
  cmdline_loop files self = (false, []) ∧
  cmdline files self ≠ nothing_to_do ∧
  cmdline files self = cmd +:+ " ".
Proof.
  intros cmd subj_dir Hres Hdir Hsteps Hne Hall.
  assert (Hstale : ∀ l, l ≠ [] →
            (∀ s, s ∈ l → s ∈ _autorecon1_steps (tables self)) →
            resume_flags files cmd subj_dir false l = (false, [])).
  { intros l Hl Hsub. unfold resume_flags.
    rewrite resume_loop_all_stale; [done | done | | done].
    intros [[step outfiles] infiles] Hs.
    destruct (Hall _ _ _ (Hsub _ Hs)) as (Hno & Hfl & Hout & Hmiss).
    split_and!; [done | done |].
    apply check_depends_stale. unfold step_outfiles; simpl.
    destruct outfiles as [|o outfiles]; [done|].
    exists (Path.join subj_dir o). split; [by left | left].
    apply Hmiss. by left. }
  assert (Hloop : cmdline_loop files self = (false, [])).
  { unfold cmdline_loop, select_steps. rewrite Hdir, Hsteps. simpl.
    by apply Hstale. }
  assert (Hcmd : cmdline files self = cmd +:+ " ").
  { rewrite cmdline_resume by (by rewrite ?Hloop). by rewrite Hloop. }
  split_and!; [| done | | done].
  - intros pre post Heq Hpre. apply Hstale; [done|].
    intros s Hs. rewrite Heq. apply elem_of_app. by left.
  - rewrite Hcmd. change nothing_to_do
      with ("echo recon-all: nothing to d" +:+ String "o" "").
    by apply string_app_last_ne.
Qed.

(** C7, amended, on the sample tables. *)
Lemma autorecon1_all_outputs_missing_witness :
  cmdline_loop Sample.no_files (Sample.run "autorecon1" None) = (false, []) ∧
  cmdline Sample.no_files (Sample.run "autorecon1" None)
  = "recon-all -autorecon1 -subjid sub-01 -sd /subjects" +:+ " ".
Proof.
  destruct (autorecon1_all_outputs_missing Sample.no_files
              (Sample.run "autorecon1" None) eq_refl eq_refl eq_refl)
    as (_ & Hloop & _ & Hcmd); [done | | done].
  intros step outfiles infiles Hs.
  repeat (apply elem_of_cons in Hs as [[= -> -> ->] | Hs]; [done|]).
  by apply elem_of_nil in Hs.
Defined.

(** ** The step selector *)

(** The values of the [directive] input, by the branch they take. *)
Lemma directive_values_cases d :
  d ∈ directive_values →
  d ∈ ["autorecon1"; "autorecon2-volonly"; "autorecon2-perhemi";
       "autorecon3"; "autorecon-hemi"] ∨
  (d ∈ ["autorecon2"; "autorecon2-inflate1"; "autorecon2-cp";
        "autorecon2-wm"] ∧ Str.startswith d "autorecon2" = true) ∨
  (d ∈ ["all"; "autorecon-pial"; "autorecon3-T2pial"; "localGI"; "qcache"] ∧
   Str.startswith d "autorecon2" = false).
Proof.
  unfold directive_values. intros Hd.
  repeat (apply elem_of_cons in Hd as [-> | Hd];
          [first [ left; by repeat constructor
                 | right; left; split; [by repeat constructor | done]
                 | right; right; split; [by repeat constructor | done] ] |]).
  by apply elem_of_nil in Hd.
Qed.

Lemma select_steps_autorecon2_variant T inp d :
  directive inp = Some d →
  Str.startswith d "autorecon2" = true →
  d ≠ "autorecon2-volonly" → d ≠ "autorecon2-perhemi" →
  select_steps T inp =
    match hemi inp with
    | Some h =>
        _autorecon2_volonly_steps T ++
        (if String.eqb h "lh" then _autorecon2_lh_steps T
         else _autorecon2_rh_steps T)
    | None => _autorecon2_steps T
    end.
Proof.
  intros Hd Hpre Hvol Hper. unfold select_steps. rewrite Hd.
  apply String.eqb_neq in Hvol, Hper. rewrite Hvol, Hper, Hpre.
  destruct (String.eqb d "autorecon1") eqn:H1.
  { apply String.eqb_eq in H1. by subst d. }
  destruct (hemi inp) as [h|]; [|done]. by destruct (String.eqb h "lh").
Qed.

Lemma select_steps_autorecon_hemi T inp :
  directive inp = Some "autorecon-hemi" →
  select_steps T inp =
    if bool_decide (hemi inp = Some "lh") then _autorecon_lh_steps T
    else _autorecon_rh_steps T.
Proof. intros Hd. unfold select_steps. by rewrite Hd. Qed.

(** C3. A defined directive resolves by the fixed rules: ['autorecon1'],
    ['autorecon2-volonly'], ['autorecon2-perhemi'] and ['autorecon3'] to
    their own tables; any other directive that starts with ['autorecon2']
    to the volonly steps followed by the steps of the left (['lh']) or the
    right (any other value) hemisphere when [hemi] is defined, and to the
    table of [autorecon2] when it is not; ['autorecon-hemi'] to the steps
    of one hemisphere; every other string, among them ['all'],
    ['autorecon-pial'], ['autorecon3-T2pial'], ['localGI'] and ['qcache'],
    to the master list.  [select_steps] is total: there is no directive or
    combination of inputs it does not answer. *)
Theorem select_steps_by_directive T inp d :
  directive inp = Some d →
  (d = "autorecon1" → select_steps T inp = _autorecon1_steps T) ∧
  (d = "autorecon2-volonly" →
     select_steps T inp = _autorecon2_volonly_steps T) ∧
  (d = "autorecon2-perhemi" →
     select_steps T inp = _autorecon2_perhemi_steps T) ∧
  (d = "autorecon3" → select_steps T inp = _autorecon3_steps T) ∧
  (Str.startswith d "autorecon2" = true →
   d ≠ "autorecon2-volonly" → d ≠ "autorecon2-perhemi" →
     (hemi inp = Some "lh" →
        select_steps T inp
        = _autorecon2_volonly_steps T ++ _autorecon2_lh_steps T) ∧
     (∀ h, hemi inp = Some h → h ≠ "lh" →
        select_steps T inp
        = _autorecon2_volonly_steps T ++ _autorecon2_rh_steps T) ∧
     (hemi inp = None → select_steps T inp = _autorecon2_steps T)) ∧
  (d = "autorecon-hemi" →
     (hemi inp = Some "lh" → select_steps T inp = _autorecon_lh_steps T) ∧
     (hemi inp ≠ Some "lh" → select_steps T inp = _autorecon_rh_steps T)) ∧
  (d ≠ "autorecon1" → Str.startswith d "autorecon2" = false →
   d ≠ "autorecon-hemi" → d ≠ "autorecon3" →
     select_steps T inp = _steps T) ∧
  (d ∈ ["all"; "autorecon-pial"; "autorecon3-T2pial"; "localGI"; "qcache"] →
     select_steps T inp = _steps T).
Proof.
  intros Hd. split_and!;
    try (intros ->; unfold select_steps; by rewrite Hd).
  - intros Hpre Hvol Hper.
    rewrite (select_steps_autorecon2_variant T inp d) by done.
    split_and!.
    + by intros ->.
    + intros h -> Hh. apply String.eqb_neq in Hh. by rewrite Hh.
    + by intros ->.
  - intros ->. rewrite select_steps_autorecon_hemi by done. split.
    + intros Hh. by rewrite bool_decide_eq_true_2.
    + intros Hh. by rewrite bool_decide_eq_false_2.
  - unfold select_steps. rewrite Hd. intros H1 H2 Hh H3.
    apply String.eqb_neq in H1, Hh, H3. rewrite H1, H2, Hh, H3.
    destruct (String.eqb d "autorecon2-volonly") eqn:Hvol.
    { apply String.eqb_eq in Hvol. by subst d. }
    destruct (String.eqb d "autorecon2-perhemi") eqn:Hper.
    { apply String.eqb_eq in Hper. by subst d. }
    done.
  - unfold select_steps. rewrite Hd. intros Hin.
    repeat (apply elem_of_cons in Hin as [-> | Hin]; [done|]).
    by apply elem_of_nil in Hin.
Qed.

(** C3 on the sample tables, for the directive ['autorecon2-wm'] and the
    left hemisphere. *)
Lemma select_steps_by_directive_witness :
  select_steps Sample.fs6 (inputs (Sample.run "autorecon2-wm" (Some "lh")))
  = Sample.autorecon2_volonly ++ Sample.autorecon2_hemi ["lh"].
Proof.
  destruct (select_steps_by_directive Sample.fs6
              (inputs (Sample.run "autorecon2-wm" (Some "lh")))
              "autorecon2-wm" eq_refl)
    as (_ & _ & _ & _ & Hvariant & _).
  destruct Hvariant as (Hlh & _); [done | done | done |].
  by apply Hlh.
Defined.

(** C9. Directive ['autorecon-hemi'] compares [hemi] with ['lh'] without
    asking whether it is defined: the steps of the left hemisphere exactly
    when [hemi] is ['lh'], those of the right hemisphere in every other
    case, [hemi] undefined among them.  The other directives that start
    with ['autorecon2'] do ask: with [hemi] undefined they resolve to the
    table of [autorecon2], not to a hemisphere. *)
Theorem autorecon_hemi_reads_hemi_unguarded T inp :
  (directive inp = Some "autorecon-hemi" →
     (hemi inp = Some "lh" → select_steps T inp = _autorecon_lh_steps T) ∧
     (hemi inp ≠ Some "lh" → select_steps T inp = _autorecon_rh_steps T) ∧
     (hemi inp = None → select_steps T inp = _autorecon_rh_steps T)) ∧
  (∀ d, directive inp = Some d →
     Str.startswith d "autorecon2" = true →
     d ≠ "autorecon2-volonly" → d ≠ "autorecon2-perhemi" →
     hemi inp = None →
     select_steps T inp = _autorecon2_steps T).
Proof.
  split.
  - intros Hd. rewrite select_steps_autorecon_hemi by done. split_and!.
    + intros ->. by rewrite bool_decide_eq_true_2.
    + intros Hne. by rewrite bool_decide_eq_false_2.
    + intros ->. by rewrite bool_decide_eq_false_2.
  - intros d Hd Hpre Hvol Hper Hh.
    rewrite (select_steps_autorecon2_variant T inp d) by done.
    by rewrite Hh.
Qed.

(** C9 on the sample tables: ['autorecon-hemi'] with [hemi] undefined gives
    the steps of the right hemisphere. *)
Lemma autorecon_hemi_reads_hemi_unguarded_witness :
  select_steps Sample.fs6 (inputs (Sample.run "autorecon-hemi" None))
  = Sample.autorecon2_hemi ["rh"] ++ Sample.autorecon3_hemi ["rh"].
Proof.
  destruct (autorecon_hemi_reads_hemi_unguarded Sample.fs6
              (inputs (Sample.run "autorecon-hemi" None)))
    as ((_ & _ & Hundef) & _); [done|].
  by apply Hundef.
Defined.

(** On the sample tables (FreeSurfer 6), the step list [rmneck], a value
    the [steps] input accepts, resolves to no step at all: the names of the
    resolved sequence are not the requested names. *)
Lemma explicit_steps_drop_unknown_names :
  directive (inputs (Sample.run_steps ["rmneck"] "")) = None ∧
  steps (inputs (Sample.run_steps ["rmneck"] "")) = Some ["rmneck"] ∧
  "rmneck" ∈ step_values ∧
  select_steps Sample.fs6 (inputs (Sample.run_steps ["rmneck"] "")) = [] ∧
  ¬ (∀ n, n ∈ step_name <$>
            select_steps Sample.fs6 (inputs (Sample.run_steps ["rmneck"] ""))
          ↔ n ∈ ["rmneck"]).
Proof.
  split_and!; try done.
  - unfold step_values. set_solver.
  - intros Heq. assert (Hin : "rmneck" ∈ ["rmneck"]) by by left.
    apply Heq in Hin. by apply elem_of_nil in Hin.
Qed.

(** C4, amended. With no directive and a step list given, the resolved
    sequence is the master list filtered to the steps whose name is
    requested: a subsequence of the master list, in its order, with every
    step of the master list that bears a requested name; its set of names
    is the set of requested names that are names of the master list (and
    so the set of requested names when all of them are). *)
Theorem explicit_steps_filter_master T inp names :
  directive inp = None →
  steps inp = Some names →
  select_steps T inp = filter (λ s, step_name s ∈ names) (_steps T) ∧
  select_steps T inp `sublist_of` _steps T ∧
  (∀ s, s ∈ _steps T → step_name s ∈ names → s ∈ select_steps T inp) ∧
  (∀ n, n ∈ step_name <$> select_steps T inp
        ↔ n ∈ names ∧ n ∈ step_name <$> _steps T) ∧
  ((∀ n, n ∈ names → n ∈ step_name <$> _steps T) →
   ∀ n, n ∈ step_name <$> select_steps T inp ↔ n ∈ names).
Proof.
  intros Hd Hs.
  assert (Hsel : select_steps T inp
                 = filter (λ s, step_name s ∈ names) (_steps T)).
  { unfold select_steps. by rewrite Hd, Hs. }
  assert (Hnames : ∀ n, n ∈ step_name <$> select_steps T inp
                        ↔ n ∈ names ∧ n ∈ step_name <$> _steps T).
  { intros n. rewrite Hsel, !list_elem_of_fmap. split.
    - intros (s & -> & Hin). apply list_elem_of_filter in Hin as [Hn Hin].
      split; [done | by exists s].
    - intros (Hn & s & -> & Hin). exists s. split; [done|].
      by apply list_elem_of_filter. }
  split_and!; [done | | | done |].
  - rewrite Hsel. apply sublist_filter.
  - intros s Hin Hn. rewrite Hsel. by apply list_elem_of_filter.
  - intros Hknown n. rewrite Hnames. split; [by intros [Hn _] |].
    intros Hn. split; [done | by apply Hknown].
Qed.

(** C4, amended, on the sample tables: of [rmneck], [white] and
    [nuintensitycor], the two steps the master list has, in its order. *)
Lemma explicit_steps_filter_master_witness :
  select_steps Sample.fs6
    (inputs (Sample.run_steps ["rmneck"; "white"; "nuintensitycor"] ""))
  = [ ("nuintensitycor", ["mri/nu.mgz"], []);
      ("white", ["surf/lh.white.preaparc"; "surf/rh.white.preaparc";
                 "surf/lh.curv"; "surf/rh.curv";
                 "surf/lh.area"; "surf/rh.area";
                 "label/lh.cortex.label"; "label/rh.cortex.label"], []) ].
Proof.
  destruct (explicit_steps_filter_master Sample.fs6
              (inputs (Sample.run_steps ["rmneck"; "white"; "nuintensitycor"] ""))
              ["rmneck"; "white"; "nuintensitycor"] eq_refl eq_refl)
    as (Hsel & _).
  rewrite Hsel. reflexivity.
Defined.

(** ** The output listing of [CALabel] *)

Section paths.
Implicit Types p cwd : string.

Lemma normpath_absolute p :
  Path.isabs p = true → Path.isabs (Path.normpath p) = true.
Proof.
  unfold Path.isabs, Path.normpath. intros Hp.
  destruct (String.eqb p "") eqn:He.
  { apply String.eqb_eq in He. by subst p. }
  rewrite Hp.
  destruct (Str.startswith p "//" && _);
    rewrite !string_app_cons, string_app_nil_l; simpl; [done|].
  by destruct (Str.join _ _).
Qed.

Lemma join_absolute cwd p :
  Path.isabs cwd = true → Path.isabs (Path.join cwd p) = true.
Proof.
  unfold Path.isabs, Path.join. intros Hc.
  destruct (Str.startswith p "/") eqn:Hp; [done|].
  apply startswith_spec in Hc as [post ->].
  destruct (_ || _); apply startswith_spec; eexists;
    by rewrite string_app_assoc.
Qed.

(** [abspath] answers an absolute path (the working directory is one). *)
Lemma abspath_absolute cwd p :
  Path.isabs cwd = true → Path.isabs (Path.abspath cwd p) = true.
Proof.
  intros Hc. unfold Path.abspath.
  destruct (Path.isabs p) eqn:Hp; apply normpath_absolute; [done|].
  by apply join_absolute.
Qed.
End paths.

Lemma format_03d_range :
  Str.format_03d <$> seq 0 3 = ["000"; "001"; "002"].
Proof. reflexivity. Qed.

(** C6. With the prefix [write_probs] defined, the listing gets, under the
    key ['label_probabilities'], the list of exactly three paths, the
    absolute paths of [<prefix>000.mgz], [<prefix>001.mgz] and
    [<prefix>002.mgz] in this order; with the prefix undefined, the
    listing is the parent's. *)
Theorem list_outputs_label_probabilities self :
  (∀ prefix, write_probs self = Some prefix →
     _list_outputs self !! "label_probabilities"
     = Some (ListValue
         [ Path.abspath (getcwd self) (prefix +:+ "000.mgz");
           Path.abspath (getcwd self) (prefix +:+ "001.mgz");
           Path.abspath (getcwd self) (prefix +:+ "002.mgz") ]) ∧
     "label_probabilities" ∈ dom (_list_outputs self) ∧
     (Path.isabs (getcwd self) = true →
      ∀ p, p ∈ [ Path.abspath (getcwd self) (prefix +:+ "000.mgz");
                 Path.abspath (getcwd self) (prefix +:+ "001.mgz");
                 Path.abspath (getcwd self) (prefix +:+ "002.mgz") ] →
           Path.isabs p = true)) ∧
  (write_probs self = None → _list_outputs self = super_list_outputs self).
Proof.
  unfold _list_outputs. split.
  - intros prefix ->. split_and!.
    + by rewrite lookup_insert_eq.
    + rewrite dom_insert_L. set_solver.
    + intros Hcwd p Hp.
      repeat (apply elem_of_cons in Hp as [-> | Hp];
              [by apply abspath_absolute|]).
      by apply elem_of_nil in Hp.
  - by intros ->.
Qed.

(** C6 on the example of the docstring: prefix ['posterior'], working
    directory [/work]. *)
Lemma list_outputs_label_probabilities_witness :
  _list_outputs {| write_probs := Some "posterior";
                   super_list_outputs :=
                     {[ "out_file" := PathValue "/work/aseg.auto_noCCseg.mgz" ]};
                   getcwd := "/work" |} !! "label_probabilities"
  = Some (ListValue [ "/work/posterior000.mgz"; "/work/posterior001.mgz";
                      "/work/posterior002.mgz" ]).
Proof.
  destruct (list_outputs_label_probabilities
              {| write_probs := Some "posterior";
                 super_list_outputs :=
                   {[ "out_file" := PathValue "/work/aseg.auto_noCCseg.mgz" ]};
                 getcwd := "/work" |}) as [Hset _].
  destruct (Hset "posterior" eq_refl) as (Hlook & _).
  rewrite Hlook. reflexivity.
Defined.

(** C10. [_list_outputs] changes the entry ['label_probabilities'] only:
    under every other key the listing has what the parent's listing has,
    and it has no key besides that one and the parent's. *)
Theorem list_outputs_frame self :
  (∀ k, k ≠ "label_probabilities" →
     _list_outputs self !! k = super_list_outputs self !! k) ∧
  dom (_list_outputs self)
    ⊆ dom (super_list_outputs self) ∪ {[ "label_probabilities" ]}.
Proof.
  unfold _list_outputs. destruct (write_probs self) as [prefix|]; split.
  - intros k Hk. by rewrite lookup_insert_ne.
  - rewrite dom_insert_L. by rewrite (comm_L (∪)).
  - done.
  - apply union_subseteq_l.
Qed.

(** C10 on the example of the docstring: ['out_file'] is as the parent
    listed it. *)
Lemma list_outputs_frame_witness :
  _list_outputs {| write_probs := Some "posterior";
                   super_list_outputs :=
                     {[ "out_file" := PathValue "/work/aseg.auto_noCCseg.mgz" ]};
                   getcwd := "/work" |} !! "out_file"
  = Some (PathValue "/work/aseg.auto_noCCseg.mgz").
Proof.
  destruct (list_outputs_frame
              {| write_probs := Some "posterior";
                 super_list_outputs :=
                   {[ "out_file" := PathValue "/work/aseg.auto_noCCseg.mgz" ]};
                 getcwd := "/work" |}) as [Hframe _].
  rewrite Hframe; [|done]. simpl. by rewrite lookup_singleton_eq.
Defined.

(** * Further properties of the resume flag builder *)

Section resume_loop_structure.
Variables (files : Files) (cmd subj_dir : string) (steps_defined : bool).

Local Abbreviation body := (resume_step files cmd subj_dir steps_defined).
Local Abbreviation loop := (resume_flags files cmd subj_dir steps_defined).
Local Abbreviation fresh outfiles infiles :=
  (check_depends files (map (Path.join subj_dir) outfiles)
                       (map (Path.join subj_dir) infiles)).

(** An iteration reads the loop's variables only to extend them: its
    result is what it does from the initial state, added to the state. *)
Lemma resume_step_from_start st s :
  body st s = (st.1 && (body (true, []) s).1, st.2 ++ (body (true, []) s).2).
Proof.
  destruct st as [no_run flags], s as [[step outs] ins]; simpl.
  repeat case_match; simpl;
    rewrite ?andb_true_r, ?andb_false_r, ?app_nil_r; done.
Qed.

Lemma resume_loop_from_start l st :
  fold_left body l st = (st.1 && (loop l).1, st.2 ++ (loop l).2).
Proof.
  revert st. induction l as [|s l IH]; intros st.
  - destruct st. simpl. by rewrite andb_true_r, app_nil_r.
  - unfold resume_flags. cbn [fold_left].
    rewrite (IH (body st s)), (IH (body (true, []) s)).
    rewrite (resume_step_from_start st s). cbn [fst snd].
    by rewrite andb_assoc, app_assoc.
Qed.

Lemma resume_flags_cons s l :
  loop (s :: l)
  = ((body (true, []) s).1 && (loop l).1, (body (true, []) s).2 ++ (loop l).2).
Proof.
  unfold resume_flags at 1. cbn [fold_left].
  by rewrite resume_loop_from_start.
Qed.

(** The flags of the loop, by membership. *)
Lemma resume_flags_elem l f :
  f ∈ (loop l).2 ↔
  ∃ step outfiles infiles,
    (step, outfiles, infiles) ∈ l ∧
    Str.contains ("-no" +:+ step) cmd = false ∧
    Str.contains ("-" +:+ step) cmd = false ∧
    ((fresh outfiles infiles = true ∧ f = "-no" +:+ step) ∨
     (fresh outfiles infiles = false ∧ steps_defined = true ∧
      f = "-" +:+ step)).
Proof.
  induction l as [|[[step outs] ins] l IH].
  - split; [by intros ?%elem_of_nil |].
    by intros (? & ? & ? & ?%elem_of_nil & _).
  - rewrite resume_flags_cons. simpl. rewrite elem_of_app, IH. split.
    + intros [Hf | (step' & outs' & ins' & Hin & Hrest)].
      * exists step, outs, ins. split; [by left|].
        destruct (Str.contains ("-no" +:+ step) cmd); simpl in Hf;
          [by apply elem_of_nil in Hf|].
        destruct (Str.contains ("-" +:+ step) cmd); simpl in Hf;
          [by apply elem_of_nil in Hf|].
        split_and!; [done | done |].
        destruct (fresh outs ins); simpl in Hf.
        -- left. apply list_elem_of_singleton in Hf. done.
        -- right. destruct steps_defined; simpl in Hf;
             [| by apply elem_of_nil in Hf].
           apply list_elem_of_singleton in Hf. done.
      * exists step', outs', ins'. split; [by right | done].
    + intros (step' & outs' & ins' & Hin & Hno & Hfl & Hcase).
      apply elem_of_cons in Hin as [[= -> -> ->] | Hin].
      * left. rewrite Hno, Hfl.
        destruct Hcase as [[-> ->] | (-> & Hsd & ->)]; simpl.
        -- by apply list_elem_of_singleton.
        -- rewrite Hsd. by apply list_elem_of_singleton.
      * right. by exists step', outs', ins'.
Qed.

(** [no_run] at the end of the loop, by the steps. *)
Lemma resume_flags_no_run l :
  (loop l).1 = true ↔
  ∀ step outfiles infiles,
    (step, outfiles, infiles) ∈ l →
    Str.contains ("-no" +:+ step) cmd = true ∨
    (Str.contains ("-" +:+ step) cmd = false ∧
     fresh outfiles infiles = true).
Proof.
  split.
  - intros Hrun step outs ins Hin. unfold resume_flags in Hrun.
    destruct (Str.contains ("-no" +:+ step) cmd) eqn:Hno; [by left | right].
    destruct (Str.contains ("-" +:+ step) cmd) eqn:Hfl.
    { rewrite (resume_loop_no_run_cleared files cmd subj_dir steps_defined
                 l (true, []) (step, outs, ins)) in Hrun;
        [done | done | done | by left]. }
    destruct (fresh outs ins) eqn:Hfresh; [done|].
    rewrite (resume_loop_no_run_cleared files cmd subj_dir steps_defined
               l (true, []) (step, outs, ins)) in Hrun;
      [done | done | done | by right].
  - intros Hall. unfold resume_flags.
    rewrite resume_loop_no_run_kept; [done|].
    intros [[step outs] ins] Hs. by apply Hall.
Qed.
End resume_loop_structure.

(** Every flag of the loop starts with a dash. *)
Lemma resume_flags_dash files cmd subj_dir steps_defined l f :
  f ∈ (resume_flags files cmd subj_dir steps_defined l).2 →
  ∃ rest, f = "-" +:+ rest.
Proof.
  intros (step & outs & ins & _ & _ & _ & Hcase)%resume_flags_elem.
  destruct Hcase as [[_ ->] | (_ & _ & ->)].
  - by exists ("no" +:+ step).
  - by exists step.
Qed.

Lemma join_head sep f fs : ∃ rest, Str.join sep (f :: fs) = f +:+ rest.
Proof.
  destruct fs as [|g fs].
  - exists "". simpl. by rewrite string_app_empty_r.
  - by exists (sep +:+ Str.join sep (g :: fs)).
Qed.

(** The resumed command line is never the text of the placeholder. *)
Lemma resume_cmd_not_placeholder cmd flags :
  (∀ f, f ∈ flags → ∃ rest, f = "-" +:+ rest) →
  cmd +:+ " " +:+ Str.join " " flags ≠ nothing_to_do.
Proof.
  intros Hdash. destruct flags as [|f fs].
  - change (cmd +:+ " " +:+ Str.join " " [])
      with (cmd +:+ String " " "").
    change nothing_to_do
      with ("echo recon-all: nothing to d" +:+ String "o" "").
    by apply string_app_last_ne.
  - destruct (Hdash f) as [rest ->]; [by left|].
    destruct (join_head " " ("-" +:+ rest) fs) as [tl ->].
    intros Heq.
    assert (Hin : Str.contains " -" nothing_to_do = true).
    { apply contains_spec. exists cmd, (rest +:+ tl). rewrite <- Heq.
      by rewrite !string_app_assoc. }
    done.
Qed.

(** X1. A flag the loop collects is never one the base command line
    already has: it is ['-no<step>'] of a fresh step of the sequence, or,
    with [steps] defined, ['-<step>'] of a step that is not fresh, and
    these characters do not occur in the base command line. *)
Theorem collected_flags_are_new files cmd subj_dir steps_defined l f :
  f ∈ (resume_flags files cmd subj_dir steps_defined l).2 →
  Str.contains f cmd = false ∧
  ∃ step outfiles infiles,
    (step, outfiles, infiles) ∈ l ∧
    ((f = "-no" +:+ step ∧
      check_depends files (map (Path.join subj_dir) outfiles)
                          (map (Path.join subj_dir) infiles) = true) ∨
     (f = "-" +:+ step ∧ steps_defined = true ∧
      check_depends files (map (Path.join subj_dir) outfiles)
                          (map (Path.join subj_dir) infiles) = false)).
Proof.
  intros (step & outs & ins & Hin & Hno & Hfl & Hcase)%resume_flags_elem.
  destruct Hcase as [[Hfresh ->] | (Hstale & Hsd & ->)].
  - split; [done|]. exists step, outs, ins. split; [done | by left].
  - split; [done|]. exists step, outs, ins. split; [done | by right].
Qed.

Lemma collected_flags_are_new_witness :
  Str.contains "-nomotioncor"
    "recon-all -autorecon1 -subjid sub-01 -sd /subjects" = false.
Proof.
  apply (collected_flags_are_new Sample.all_files
           "recon-all -autorecon1 -subjid sub-01 -sd /subjects"
           "/subjects/sub-01" false Sample.autorecon1 "-nomotioncor").
  vm_compute. by left.
Defined.

(** X2. With [steps] defined and none of the steps' flags in the base
    command line, the loop collects exactly one flag for each step, in the
    order of the sequence: ['-no<step>'] for a fresh step and ['-<step>']
    for any other.  In every mode it collects at most one flag a step. *)
Theorem one_flag_per_step files cmd subj_dir steps_defined l :
  length (resume_flags files cmd subj_dir steps_defined l).2 ≤ length l ∧
  (steps_defined = true →
   (∀ step outfiles infiles, (step, outfiles, infiles) ∈ l →
      Str.contains ("-no" +:+ step) cmd = false ∧
      Str.contains ("-" +:+ step) cmd = false) →
   (resume_flags files cmd subj_dir steps_defined l).2
   = map (λ s, if check_depends files
                    (map (Path.join subj_dir) (step_outfiles s))
                    (map (Path.join subj_dir) (step_infiles s))
               then "-no" +:+ step_name s else "-" +:+ step_name s) l).
Proof.
  split.
  - induction l as [|[[step outs] ins] l IH]; [done|].
    rewrite resume_flags_cons. cbn [snd]. rewrite length_app. simpl.
    repeat case_match; simpl; lia.
  - intros Hsd Hall. induction l as [|[[step outs] ins] l IH]; [done|].
    rewrite resume_flags_cons. cbn [snd map].
    rewrite IH
      by (intros step' outs' ins' Hin; apply (Hall step' outs' ins');
          by right).
    destruct (Hall step outs ins) as [Hno Hfl]; [by left|].
    unfold step_name, step_outfiles, step_infiles. simpl.
    rewrite Hno, Hfl, Hsd. by case_match.
Qed.

Lemma one_flag_per_step_witness :
  (resume_flags (λ p, if String.eqb p "/subjects/sub-01/mri/nu.mgz"
                      then None else Some 3%Z)
     "recon-all -subjid sub-01" "/subjects/sub-01" true
     [("nuintensitycor", ["mri/nu.mgz"], []);
      ("normalization", ["mri/T1.mgz"], [])]).2
  = ["-nuintensitycor"; "-nonormalization"].
Proof.
  destruct (one_flag_per_step
              (λ p, if String.eqb p "/subjects/sub-01/mri/nu.mgz"
                    then None else Some 3%Z)
              "recon-all -subjid sub-01" "/subjects/sub-01" true
              [("nuintensitycor", ["mri/nu.mgz"], []);
               ("normalization", ["mri/T1.mgz"], [])]) as [_ Hflags].
  rewrite Hflags; [reflexivity | reflexivity |].
  intros step outs ins Hin.
  repeat (apply elem_of_cons in Hin as [[= -> -> ->] | Hin]; [done|]).
  by apply elem_of_nil in Hin.
Defined.

(** X3. The loop over two sequences one after the other is the loop over
    each: the flags are those of the first followed by those of the second,
    and [no_run] holds when it holds for both.  What an iteration decides
    does not depend on the steps before it. *)
Theorem resume_flags_concat files cmd subj_dir steps_defined l1 l2 :
  resume_flags files cmd subj_dir steps_defined (l1 ++ l2)
  = ((resume_flags files cmd subj_dir steps_defined l1).1 &&
     (resume_flags files cmd subj_dir steps_defined l2).1,
     (resume_flags files cmd subj_dir steps_defined l1).2 ++
     (resume_flags files cmd subj_dir steps_defined l2).2).
Proof. rewrite resume_flags_app. apply resume_loop_from_start. Qed.

(** X4. When resuming, [cmdline] is the placeholder exactly when
    [force_run] is false and every step of the resolved sequence has
    ['-no<step>'] in the base command line, or has no ['-<step>'] there
    and is fresh. *)
Theorem nothing_to_do_iff files self :
  _is_resuming self = true →
  (cmdline files self = nothing_to_do ↔
   force_run self = false ∧
   ∀ step outfiles infiles,
     (step, outfiles, infiles) ∈ select_steps (tables self) (inputs self) →
     Str.contains ("-no" +:+ step) (base_cmd self) = true ∨
     (Str.contains ("-" +:+ step) (base_cmd self) = false ∧
      every_output_newer files
        (map (Path.join (subj_dir_of self)) outfiles)
        (map (Path.join (subj_dir_of self)) infiles))).
Proof.
  intros Hres.
  assert (Hrun : (cmdline_loop files self).1 = true ↔
    ∀ step outfiles infiles,
      (step, outfiles, infiles) ∈ select_steps (tables self) (inputs self) →
      Str.contains ("-no" +:+ step) (base_cmd self) = true ∨
      (Str.contains ("-" +:+ step) (base_cmd self) = false ∧
       every_output_newer files
         (map (Path.join (subj_dir_of self)) outfiles)
         (map (Path.join (subj_dir_of self)) infiles))).
  { unfold cmdline_loop. rewrite resume_flags_no_run.
    split; intros Hall step outs ins Hin;
      (destruct (Hall step outs ins Hin) as [? | [? Hf]]; [by left | right]);
      (split; [done | by apply check_depends_spec]). }
  split.
  - intros Hcmd.
    destruct (cmdline_loop files self).1 eqn:Hno_run.
    + destruct (force_run self) eqn:Hforce; [| by split; [| apply Hrun]].
      exfalso. revert Hcmd. unfold cmdline. rewrite Hres, Hforce. simpl.
      destruct (cmdline_loop files self) as [no_run flags] eqn:Hloop.
      rewrite andb_false_r. apply resume_cmd_not_placeholder.
      intros f Hf. apply (resume_flags_dash files (base_cmd self)
        (subj_dir_of self) (bool_decide (is_Some (steps (inputs self))))
        (select_steps (tables self) (inputs self))).
      fold (cmdline_loop files self). by rewrite Hloop.
    + exfalso. rewrite cmdline_resume in Hcmd by done.
      revert Hcmd. apply resume_cmd_not_placeholder.
      intros f Hf. by apply resume_flags_dash in Hf.
  - intros [Hforce Hall]. apply cmdline_nothing_to_do; [done | | done].
    by apply Hrun.
Qed.

Lemma nothing_to_do_iff_witness :
  cmdline Sample.no_files (Sample.run "autorecon1" None) ≠ nothing_to_do.
Proof.
  intros Hcmd.
  apply (nothing_to_do_iff Sample.no_files (Sample.run "autorecon1" None)
           eq_refl) in Hcmd as [_ Hall].
  destruct (Hall "motioncor" ["mri/rawavg.mgz"; "mri/orig.mgz"] [])
    as [Hno | [_ Hfresh]]; [by left | done |].
  apply check_depends_spec in Hfresh. done.
Defined.

(** X5. When resuming with no directive and [force_run] false, a step list
    that names no step of the master list (or no step list at all)
    resolves to nothing, and [cmdline] is the placeholder: the requested
    steps are reported as nothing to do. *)
Theorem unknown_steps_nothing_to_do files self :
  _is_resuming self = true →
  force_run self = false →
  directive (inputs self) = None →
  (∀ names n, steps (inputs self) = Some names → n ∈ names →
     n ∉ step_name <$> _steps (tables self)) →
  select_steps (tables self) (inputs self) = [] ∧
  cmdline files self = nothing_to_do.
Proof.
  intros Hres Hforce Hdir Hunknown.
  assert (Hsel : select_steps (tables self) (inputs self) = []).
  { unfold select_steps. rewrite Hdir.
    destruct (steps (inputs self)) as [names|] eqn:Hsteps; [|done].
    apply elem_of_nil_inv. intros s [Hn Hs]%list_elem_of_filter.
    apply (Hunknown names (step_name s)); [done | done |].
    by apply list_elem_of_fmap_2. }
  split; [done|].
  apply cmdline_nothing_to_do; [done | | done].
  unfold cmdline_loop. by rewrite Hsel.
Qed.

Lemma unknown_steps_nothing_to_do_witness :
  cmdline Sample.no_files (Sample.run_steps ["rmneck"; "careginv"] "")
  = "echo recon-all: nothing to do".
Proof.
  apply (unknown_steps_nothing_to_do Sample.no_files
           (Sample.run_steps ["rmneck"; "careginv"] "")
           eq_refl eq_refl eq_refl).
  intros names n [= <-] Hn.
  repeat (apply elem_of_cons in Hn as [-> | Hn];
          [apply (bool_decide_unpack _); vm_compute; exact I|]).
  by apply elem_of_nil in Hn.
Defined.

Section locality.
Variables (files1 files2 : Files).



End locality.



(** X7. The resolved sequence depends on which steps are requested, not on
    the order or the number of times they are listed. *)
Theorem requested_order_is_ignored T inp1 inp2 names1 names2 :
  directive inp1 = None → directive inp2 = None →
  steps inp1 = Some names1 → steps inp2 = Some names2 →
  (∀ n, n ∈ names1 ↔ n ∈ names2) →
  select_steps T inp1 = select_steps T inp2.
Proof.
  intros Hd1 Hd2 Hs1 Hs2 Hsame. unfold select_steps.
  rewrite Hd1, Hd2, Hs1, Hs2. apply list_filter_iff. intros s. apply Hsame.
Qed.

Lemma requested_order_is_ignored_witness :
  select_steps Sample.fs6 (inputs (Sample.run_steps ["white"; "fix"] ""))
  = select_steps Sample.fs6
      (inputs (Sample.run_steps ["fix"; "white"; "fix"] "")).
Proof.
  apply (requested_order_is_ignored Sample.fs6 _ _
           ["white"; "fix"] ["fix"; "white"; "fix"]); try reflexivity.
  intros n. rewrite !elem_of_cons, !elem_of_nil. tauto.
Defined.

Section strings_more.
Implicit Types s t f pre post sep : string.

Lemma contains_app_l f s t :
  Str.contains f s = true → Str.contains f (s +:+ t) = true.
Proof.
  intros (pre & post & ->)%contains_spec. apply contains_spec.
  exists pre, (post +:+ t). by rewrite !string_app_assoc.
Qed.

Lemma contains_app_r f s t :
  Str.contains f t = true → Str.contains f (s +:+ t) = true.
Proof.
  intros (pre & post & ->)%contains_spec. apply contains_spec.
  exists (s +:+ pre), post. by rewrite !string_app_assoc.
Qed.

Lemma contains_refl f : Str.contains f f = true.
Proof.
  apply contains_spec. exists "", "". by rewrite string_app_empty_r.
Qed.

(** Each element of a list occurs in the joined string. *)
Lemma contains_join sep f l :
  f ∈ l → Str.contains f (Str.join sep l) = true.
Proof.
  induction l as [|x l IH]; [by intros ?%elem_of_nil|].
  intros Hf. destruct l as [|y l].
  - apply elem_of_cons in Hf as [-> | Hf]; [| by apply elem_of_nil in Hf].
    apply contains_refl.
  - change (Str.join sep (x :: y :: l))
      with (x +:+ sep +:+ Str.join sep (y :: l)).
    apply elem_of_cons in Hf as [-> | Hf].
    + apply contains_app_l, contains_refl.
    + by apply contains_app_r, contains_app_r, IH.
Qed.

Lemma string_length_app s t :
  String.length (s +:+ t) = String.length s + String.length t.
Proof.
  induction s as [|c s IH]; [done|].
  rewrite string_app_cons. simpl. by rewrite IH.
Qed.

(** Two strings that end in different texts of the same length differ. *)
Lemma string_app_inj_same_length s1 s2 t1 t2 :
  String.length t1 = String.length t2 →
  s1 +:+ t1 = s2 +:+ t2 → t1 = t2.
Proof.
  intros Hlen Heq.
  assert (Hs : String.length s1 = String.length s2).
  { apply (f_equal String.length) in Heq.
    rewrite !string_length_app in Heq. lia. }
  revert s2 Heq Hs. induction s1 as [|c s1 IH]; intros [|d s2] Heq Hs;
    try done.
  rewrite !string_app_cons in Heq. apply (IH s2); [congruence|].
  simpl in Hs. lia.
Qed.
End strings_more.

(** X8. The builder is stable on its own result: with the resumed command
    line as the base command line, the loop over the same steps and files
    collects no flag. *)
Theorem resume_flags_rerun files cmd subj_dir steps_defined l :
  (resume_flags files
     (cmd +:+ " " +:+
      Str.join " " (resume_flags files cmd subj_dir steps_defined l).2)
     subj_dir steps_defined l).2 = [].
Proof.
  apply elem_of_nil_inv. intros f Hf.
  apply resume_flags_elem
    in Hf as (step & outs & ins & Hin & Hno & Hfl & Hcase).
  assert (Hno0 : Str.contains ("-no" +:+ step) cmd = false).
  { apply not_true_iff_false. intros Hc.
    by rewrite (contains_app_l _ _ _ Hc) in Hno. }
  assert (Hfl0 : Str.contains ("-" +:+ step) cmd = false).
  { apply not_true_iff_false. intros Hc.
    by rewrite (contains_app_l _ _ _ Hc) in Hfl. }
  assert (Hnew : ∀ g,
            g ∈ (resume_flags files cmd subj_dir steps_defined l).2 →
            Str.contains g
              (cmd +:+ " " +:+
               Str.join " "
                 (resume_flags files cmd subj_dir steps_defined l).2)
            = true).
  { intros g Hg. by apply contains_app_r, contains_app_r, contains_join. }
  destruct Hcase as [[Hfresh _] | (Hstale & Hsd & _)].
  - rewrite Hnew in Hno; [done|]. apply resume_flags_elem.
    exists step, outs, ins. split_and!; [done | done | done | by left].
  - rewrite Hnew in Hfl; [done|]. apply resume_flags_elem.
    exists step, outs, ins. split_and!; [done | done | done | by right].
Qed.

(** The resumed command line, when it is not the placeholder. *)
Lemma cmdline_resumed_shape files self :
  _is_resuming self = true →
  cmdline files self ≠ nothing_to_do →
  cmdline files self
  = base_cmd self +:+ " " +:+ Str.join " " (cmdline_loop files self).2.
Proof.
  unfold cmdline. intros -> Hne. simpl in *.
  destruct (cmdline_loop files self) as [no_run flags].
  by destruct (no_run && negb (force_run self)).
Qed.

(** X9. With [steps] defined, a resumed command line that is not the
    placeholder names every step of the resolved sequence: ['-no<step>']
    or ['-<step>'] occurs in it. *)
Theorem explicit_steps_named_on_command_line
    files self names step outfiles infiles :
  _is_resuming self = true →
  steps (inputs self) = Some names →
  cmdline files self ≠ nothing_to_do →
  (step, outfiles, infiles) ∈ select_steps (tables self) (inputs self) →
  Str.contains ("-no" +:+ step) (cmdline files self) = true ∨
  Str.contains ("-" +:+ step) (cmdline files self) = true.
Proof.
  intros Hres Hsteps Hne Hin. rewrite cmdline_resumed_shape by done.
  destruct (Str.contains ("-no" +:+ step) (base_cmd self)) eqn:Hno.
  { left. by apply contains_app_l. }
  destruct (Str.contains ("-" +:+ step) (base_cmd self)) eqn:Hfl.
  { right. by apply contains_app_l. }
  destruct (check_depends files
              (map (Path.join (subj_dir_of self)) outfiles)
              (map (Path.join (subj_dir_of self)) infiles)) eqn:Hfresh.
  - left. apply contains_app_r, contains_app_r, contains_join.
    apply resume_flags_elem. exists step, outfiles, infiles.
    split_and!; [done | done | done | by left].
  - right. apply contains_app_r, contains_app_r, contains_join.
    apply resume_flags_elem. exists step, outfiles, infiles.
    split_and!; [done | done | done | right].
    split_and!; [done | | done]. rewrite Hsteps. by apply bool_decide_eq_true.
Qed.

Lemma explicit_steps_named_on_command_line_witness :
  Str.contains "-nowhite"
    (cmdline Sample.no_files (Sample.run_steps ["white"; "fix"] "")) = true ∨
  Str.contains "-white"
    (cmdline Sample.no_files (Sample.run_steps ["white"; "fix"] "")) = true.
Proof.
  apply (explicit_steps_named_on_command_line Sample.no_files
           (Sample.run_steps ["white"; "fix"] "") ["white"; "fix"] "white"
           ["surf/lh.white.preaparc"; "surf/rh.white.preaparc";
            "surf/lh.curv"; "surf/rh.curv"; "surf/lh.area"; "surf/rh.area";
            "label/lh.cortex.label"; "label/rh.cortex.label"] []
           eq_refl eq_refl).
  - vm_compute. discriminate.
  - vm_compute. right. left.
Defined.

(** ** Further properties of the output listing of [CALabel] *)

Section path_suffix.
Implicit Types s q w sfx pre cwd prefix : string.

(** A text without a slash stays in the last component of a split. *)
Lemma split_sep_app_last s sfx :
  Str.split_sep sfx = [sfx] →
  ∃ cs w, Str.split_sep s = cs ++ [w] ∧
          Str.split_sep (s +:+ sfx) = cs ++ [w +:+ sfx].
Proof.
  intros Hsfx. induction s as [|c s (cs & w & Hs & Happ)].
  - by exists [], "".
  - rewrite string_app_cons. cbn [Str.split_sep]. rewrite Hs, Happ.
    destruct (Ascii.eqb c "/").
    + by exists ("" :: cs), w.
    + destruct cs as [|x cs].
      * by exists [], (String c w).
      * by exists (String c x :: cs), w.
Qed.

(** A last component that is no dot entry stays the last one. *)
Lemma norm_comps_last n cs c acc :
  c ≠ "" → c ≠ "." → c ≠ ".." →
  ∃ r, Path.norm_comps n (cs ++ [c]) acc = r ++ [c].
Proof.
  intros H0 H1 H2. revert acc. induction cs as [|x cs IH]; intros acc.
  - apply String.eqb_neq in H0, H1, H2. simpl. rewrite H0, H1, H2. simpl.
    by exists (rev acc).
  - simpl. repeat case_match; apply IH.
Qed.

Lemma join_last sep r c : ∃ pre, Str.join sep (r ++ [c]) = pre +:+ c.
Proof.
  induction r as [|x r [pre IH]]; [by exists ""|].
  exists (x +:+ sep +:+ pre).
  change ((x :: r) ++ [c]) with (x :: (r ++ [c])).
  destruct (r ++ [c]) as [|y l] eqn:Hl; [by destruct r|].
  change (Str.join sep (x :: y :: l))
    with (x +:+ sep +:+ Str.join sep (y :: l)).
  by rewrite IH, !string_app_assoc.
Qed.

Lemma app_suffix3_not_dots w a b c t :
  w +:+ String a (String b (String c t)) ≠ "" ∧
  w +:+ String a (String b (String c t)) ≠ "." ∧
  w +:+ String a (String b (String c t)) ≠ "..".
Proof.
  destruct w as [|? [|? [|? ?]]];
    rewrite ?string_app_cons, ?string_app_nil_l; done.
Qed.

(** [normpath] keeps a slash-free ending of three characters or more. *)
Lemma normpath_keeps_suffix q a b c t :
  let sfx := String a (String b (String c t)) in
  Str.split_sep sfx = [sfx] →
  ∃ pre, Path.normpath (q +:+ sfx) = pre +:+ sfx.
Proof.
  intros sfx Hsfx. unfold Path.normpath.
  destruct (app_suffix3_not_dots q a b c t) as (Hq & _ & _).
  apply String.eqb_neq in Hq. fold sfx in Hq. rewrite Hq.
  destruct (split_sep_app_last q sfx Hsfx) as (cs & w & _ & ->).
  destruct (app_suffix3_not_dots w a b c t) as (Hw0 & Hw1 & Hw2).
  fold sfx in Hw0, Hw1, Hw2.
  set (n := if Str.startswith (q +:+ sfx) "/" then _ else 0).
  destruct (norm_comps_last n cs (w +:+ sfx) [] Hw0 Hw1 Hw2) as [r ->].
  destruct (join_last "/" r (w +:+ sfx)) as [pre ->].
  assert (Hne : ∀ x, (x +:+ pre +:+ w +:+ sfx =? "")%string = false).
  { intros x. apply String.eqb_neq.
    rewrite <- !string_app_assoc. apply app_suffix3_not_dots. }
  destruct n as [|[|n]].
  - rewrite (Hne "" : (pre +:+ w +:+ sfx =? "")%string = false).
    exists (pre +:+ w). by rewrite string_app_assoc.
  - rewrite (Hne "/"). exists ("/" +:+ pre +:+ w).
    by rewrite !string_app_assoc.
  - rewrite (Hne "//"). exists ("//" +:+ pre +:+ w).
    by rewrite !string_app_assoc.
Qed.

(** So does [abspath], whatever the prefix and the working directory. *)
Lemma abspath_keeps_suffix cwd prefix a b c t :
  let sfx := String a (String b (String c t)) in
  Str.split_sep sfx = [sfx] →
  ∃ pre, Path.abspath cwd (prefix +:+ sfx) = pre +:+ sfx.
Proof.
  intros sfx Hsfx. unfold Path.abspath, Path.isabs, Path.join.
  destruct (Str.startswith (prefix +:+ sfx) "/").
  - by apply normpath_keeps_suffix.
  - destruct (_ || _).
    + rewrite <- string_app_assoc. by apply normpath_keeps_suffix.
    + rewrite <- (string_app_assoc "/"), <- string_app_assoc.
      by apply normpath_keeps_suffix.
Qed.
End path_suffix.

(** X10. With the prefix defined, the three listed paths end in
    [000.mgz], [001.mgz] and [002.mgz], whatever the prefix and the working
    directory are, and so are three different paths. *)
Theorem label_probabilities_paths_distinct self prefix :
  write_probs self = Some prefix →
  ∃ p0 p1 p2,
    _list_outputs self !! "label_probabilities"
    = Some (ListValue [p0; p1; p2]) ∧
    (∃ pre, p0 = pre +:+ "000.mgz") ∧
    (∃ pre, p1 = pre +:+ "001.mgz") ∧
    (∃ pre, p2 = pre +:+ "002.mgz") ∧
    NoDup [p0; p1; p2].
Proof.
  intros Hprefix.
  destruct (abspath_keeps_suffix (getcwd self) prefix "0" "0" "0" ".mgz")
    as [d0 H0]; [done|].
  destruct (abspath_keeps_suffix (getcwd self) prefix "0" "0" "1" ".mgz")
    as [d1 H1]; [done|].
  destruct (abspath_keeps_suffix (getcwd self) prefix "0" "0" "2" ".mgz")
    as [d2 H2]; [done|].
  exists (Path.abspath (getcwd self) (prefix +:+ "000.mgz")),
         (Path.abspath (getcwd self) (prefix +:+ "001.mgz")),
         (Path.abspath (getcwd self) (prefix +:+ "002.mgz")).
  split_and!.
  - unfold _list_outputs. rewrite Hprefix. by rewrite lookup_insert_eq.
  - by exists d0.
  - by exists d1.
  - by exists d2.
  - rewrite H0, H1, H2.
    repeat (apply NoDup_cons; split); [| | | apply NoDup_nil_2].
    + rewrite !elem_of_cons, elem_of_nil.
      intros [Heq | [Heq | []]];
        by apply string_app_inj_same_length in Heq.
    + rewrite !elem_of_cons, elem_of_nil.
      intros [Heq | []]. by apply string_app_inj_same_length in Heq.
    + by intros ?%elem_of_nil.
Qed.

Lemma label_probabilities_paths_distinct_witness :
  ∃ p0 p1 p2,
    _list_outputs {| write_probs := Some "../out/./posterior";
                     super_list_outputs := ∅;
                     getcwd := "/work/run" |} !! "label_probabilities"
    = Some (ListValue [p0; p1; p2]) ∧
    (∃ pre, p0 = pre +:+ "000.mgz") ∧
    (∃ pre, p1 = pre +:+ "001.mgz") ∧
    (∃ pre, p2 = pre +:+ "002.mgz") ∧
    NoDup [p0; p1; p2].
Proof.
  apply (label_probabilities_paths_distinct
           {| write_probs := Some "../out/./posterior";
              super_list_outputs := ∅;
              getcwd := "/work/run" |} "../out/./posterior").
  reflexivity.
Defined.
